(** * RoadArg: the argument parser of [roadarg/arg.py], embedded and verified

    The development follows [src/roadarg/arg.py]:
    - a [str] is a [string], one [ascii] for each of its characters;
    - Python values ([Any]) are a closed universe [value];
    - [Dict[str, Any]] is a [gmap string value]; the scratch dictionary
      [collected], which is iterated in insertion order, is an association
      list with unique keys;
    - a raised exception is the [Raised] outcome of a small error monad;
    - the [while i < len(args)] loop is an index-driven loop with fuel, and
      [length args] is shown to be enough fuel. *)

From Stdlib Require Import ZArith Ascii String.
From stdpp Require Import gmap strings list fin_maps.

Local Open Scope string_scope.
Local Open Scope Z_scope.
Local Open Scope nat_scope.
Local Open Scope list_scope.

(** ** Builtins of the language

    [int(s)] and [float(s)] are builtins of Python, not code of the
    repository; floats and the few operations the parser can apply to one
    ([==], truth value, [+ 1]) are kept abstract. *)

Class Builtins := {
  pyfloat : Type;
  int_of_str : string → option Z;          (* int(s): None when ValueError *)
  float_of_str : string → option pyfloat;  (* float(s): None when ValueError *)
  float_eqb : pyfloat → pyfloat → bool;    (* x == y *)
  float_eq_int : pyfloat → Z → bool;       (* x == n *)
  float_nonzero : pyfloat → bool;          (* bool(x) *)
  float_succ : pyfloat → pyfloat;          (* x + 1 *)
}.

(** ** Strings *)

(* s.startswith(p) *)
Fixpoint startswith (p s : string) : bool :=
  match p, s with
  | EmptyString, _ => true
  | String a p', String b s' => if Ascii.eqb a b then startswith p' s' else false
  | String _ _, EmptyString => false
  end.

(* s[n:] *)
Fixpoint str_from (n : nat) (s : string) : string :=
  match n, s with
  | O, _ => s
  | S n', String _ s' => str_from n' s'
  | S _, EmptyString => EmptyString
  end.

(* s.split("=", 1) when "=" in s: the text before and after the first "=" *)
Fixpoint split_eq (s : string) : option (string * string) :=
  match s with
  | EmptyString => None
  | String c s' =>
      if Ascii.eqb c "="%char then Some (EmptyString, s')
      else match split_eq s' with
           | Some (k, v) => Some (String c k, v)
           | None => None
           end
  end.

(* c.lower() on an ASCII letter; other characters are left alone *)
Definition lower_ascii (c : ascii) : ascii :=
  let n := nat_of_ascii c in
  if (65 <=? n) && (n <=? 90) then ascii_of_nat (n + 32) else c.

(* s.lower().  Python also lowers letters outside ASCII; none of them is
   mapped to a letter of the four words s.lower() is compared with below. *)
Fixpoint lower (s : string) : string :=
  match s with
  | EmptyString => EmptyString
  | String c s' => String (lower_ascii c) (lower s')
  end.

(* x in (s1, s2, ...) for strings *)
Definition str_in (x : string) (l : list string) : bool :=
  existsb (String.eqb x) l.

Section RoadArg.
Context `{Builtins}.

(** ** Values *)

#[warnings="-register-all"]
Inductive value : Type :=
| VNone
| VBool (b : bool)
| VInt (n : Z)
| VFloat (x : pyfloat)
| VStr (s : string)
| VList (l : list value).

(* the number behind a bool, an int or a float *)
Definition as_number (v : value) : option (Z + pyfloat) :=
  match v with
  | VBool b => Some (inl (Z.b2z b))
  | VInt n => Some (inl n)
  | VFloat x => Some (inr x)
  | _ => None
  end.

Definition number_eqb (a b : Z + pyfloat) : bool :=
  match a, b with
  | inl m, inl n => Z.eqb m n
  | inr x, inr y => float_eqb x y
  | inl m, inr y => float_eq_int y m
  | inr x, inl n => float_eq_int x n
  end.

(* a == b *)
Fixpoint py_eq (a b : value) : bool :=
  match a, b with
  | VNone, VNone => true
  | VStr s, VStr t => String.eqb s t
  | VList l, VList m =>
      (fix all2 (l m : list value) : bool :=
         match l, m with
         | [], [] => true
         | x :: l', y :: m' => py_eq x y && all2 l' m'
         | _, _ => false
         end) l m
  | _, _ =>
      match as_number a, as_number b with
      | Some x, Some y => number_eqb x y
      | _, _ => false
      end
  end.

(* v in choices *)
Definition py_in (v : value) (choices : list value) : bool :=
  existsb (fun c => py_eq c v) choices.

(* bool(v) *)
Definition truthy (v : value) : bool :=
  match v with
  | VNone => false
  | VBool b => b
  | VInt n => negb (Z.eqb n 0)
  | VFloat x => float_nonzero x
  | VStr s => negb (String.eqb s "")
  | VList l => match l with [] => false | _ => true end
  end.

(* v + 1: None stands for TypeError *)
Definition py_add1 (v : value) : option value :=
  match v with
  | VBool b => Some (VInt (Z.b2z b + 1))
  | VInt n => Some (VInt (n + 1))
  | VFloat x => Some (VFloat (float_succ x))
  | _ => None
  end.

(** ** The schema model *)

(* the [type] field, as the closed set the parser is used with *)
Inductive pytype : Type := TStr | TInt | TFloat | TBool.

Record Arg : Type := mkArg {
  arg_name : string;
  arg_short : string;
  arg_type : pytype;
  arg_default : value;
  arg_required : bool;
  arg_help : string;
  arg_choices : list value;
  arg_nargs : string;     (* "", "?", "*", "+" *)
  arg_action : string;    (* store, store_true, store_false, count, append *)
  arg_dest : string;
  arg_metavar : string;
}.

Record Positional : Type := mkPositional {
  pos_name : string;
  pos_type : pytype;
  pos_help : string;
  pos_nargs : string;
  pos_default : value;
  pos_choices : list value;
}.

Record ParsedArgs : Type := mkParsedArgs {
  r_args : gmap string value;
  r_positionals : list value;
  r_remaining : list string;
}.

Record ArgParser : Type := mkArgParser {
  prog : string;
  description : string;
  epilog : string;
  arguments : list Arg;
  positionals : list Positional;
}.

(* Arg(name=..., short=...) with every other field at its dataclass default *)
Definition Arg_default (name short : string) : Arg :=
  {| arg_name := name; arg_short := short; arg_type := TStr;
     arg_default := VNone; arg_required := false; arg_help := "";
     arg_choices := []; arg_nargs := ""; arg_action := "store";
     arg_dest := ""; arg_metavar := "" |}.

Definition Positional_default (name : string) : Positional :=
  {| pos_name := name; pos_type := TStr; pos_help := ""; pos_nargs := "";
     pos_default := VNone; pos_choices := [] |}.

(** ** Exceptions *)

(* the text of an ArgError, kept structured *)
Inductive message : Type :=
| Unknown_argument_long (key : string)       (* "Unknown argument: --{key}" *)
| Unknown_argument_short (short : string)    (* "Unknown argument: -{short}" *)
| Option_requires_value (short : string)     (* "Option -{short} requires a value" *)
| Argument_requires_value (name : string)    (* "Argument --{name} requires a value" *)
| Invalid_choice (v : value)                 (* "Invalid choice: {value}" *)
| Invalid_choice_for (name : string) (v : value)
| Required_argument (name : string).         (* "Required argument: --{name}" *)

Inductive exn : Type :=
| ArgError (m : message)
| ValueError (typ : pytype) (token : string)  (* raised by int(..) and float(..) *)
| TypeError                                   (* raised by [+ 1] on a non-number *)
| SystemExit (code : Z).                      (* raised by sys.exit *)

Inductive outcome (A : Type) : Type :=
| Returned (a : A)
| Raised (e : exn).
Global Arguments Returned {A} a.
Global Arguments Raised {A} e.

Definition bind {A B : Type} (m : outcome A) (k : A → outcome B) : outcome B :=
  match m with
  | Returned a => k a
  | Raised e => Raised e
  end.

(* the value of a call that returned, [d] otherwise *)
Definition returned {A : Type} (d : A) (m : outcome A) : A :=
  match m with
  | Returned a => a
  | Raised _ => d
  end.

(* the error kinds of the specification *)
Inductive error_kind : Type :=
| UnknownArgumentError | MissingValueError | ConversionError
| InvalidChoiceError | RequiredArgumentError | OtherError.

Definition kind_of (e : exn) : error_kind :=
  match e with
  | ArgError (Unknown_argument_long _) | ArgError (Unknown_argument_short _) =>
      UnknownArgumentError
  | ArgError (Option_requires_value _) | ArgError (Argument_requires_value _) =>
      MissingValueError
  | ArgError (Invalid_choice _) | ArgError (Invalid_choice_for _ _) =>
      InvalidChoiceError
  | ArgError (Required_argument _) => RequiredArgumentError
  | ValueError _ _ => ConversionError
  | TypeError | SystemExit _ => OtherError
  end.

Notation "'let*' x ':=' m 'in' k" := (bind m (fun x => k))
  (at level 10, x pattern, m at level 100, k at level 200, only parsing).

(** ** Schema construction *)

(* ArgParser.add_argument: Arg(name=name, short=short, **kwargs) is [a] *)
Definition add_argument (self : ArgParser) (a : Arg) : outcome ArgParser :=
  Returned {| prog := prog self; description := description self;
              epilog := epilog self;
              arguments := arguments self ++ [a];
              positionals := positionals self |}.

(* ArgParser.add_positional *)
Definition add_positional (self : ArgParser) (p : Positional) : outcome ArgParser :=
  Returned {| prog := prog self; description := description self;
              epilog := epilog self;
              arguments := arguments self;
              positionals := positionals self ++ [p] |}.

Definition help_flag : Arg :=
  {| arg_name := "help"; arg_short := "h"; arg_type := TStr;
     arg_default := VNone; arg_required := false;
     arg_help := "Show this help message";
     arg_choices := []; arg_nargs := ""; arg_action := "store_true";
     arg_dest := ""; arg_metavar := "" |}.

(* ArgParser._add_help *)
Definition _add_help (self : ArgParser) : outcome ArgParser :=
  add_argument self help_flag.

(* ArgParser.__init__; [argv0] is sys.argv[0] *)
Definition init (argv0 prog_ description_ epilog_ : string) : outcome ArgParser :=
  _add_help {| prog := if String.eqb prog_ "" then argv0 else prog_;
               description := description_; epilog := epilog_;
               arguments := []; positionals := [] |}.

(* the schema of the short-cluster example: store_true flags a and b, value
   flag c, after the built-in help flag *)
Definition cluster_schema : ArgParser :=
  {| prog := "prog"; description := ""; epilog := "";
     arguments :=
       [ help_flag;
         mkArg "a" "a" TStr VNone false "" [] "" "store_true" "" "";
         mkArg "b" "b" TStr VNone false "" [] "" "store_true" "" "";
         Arg_default "c" "c" ];
     positionals := [] |}.

(* the schema of example_usage *)
Definition demo_schema : ArgParser :=
  {| prog := "myapp"; description := "My awesome application";
     epilog := "Example: myapp --verbose input.txt";
     arguments :=
       [ help_flag;
         mkArg "verbose" "v" TStr VNone false "Increase verbosity" [] "" "count" "" "";
         mkArg "output" "o" TStr (VStr "output.txt") false "Output file" [] "" "store" "" "";
         mkArg "format" "f" TStr (VStr "json") false "Output format"
           [VStr "json"; VStr "xml"; VStr "csv"] "" "store" "" "";
         mkArg "dry-run" "" TStr VNone false "Don't make any changes" [] ""
           "store_true" "" "" ];
     positionals :=
       [ mkPositional "input" TStr "Input file" "" VNone [];
         mkPositional "extra" TStr "Extra files" "*" VNone [] ] |}.

(* a schema with one required flag *)
Definition required_schema : ArgParser :=
  {| prog := "prog"; description := ""; epilog := "";
     arguments :=
       [ help_flag; mkArg "name" "n" TStr VNone true "" [] "" "store" "" "" ];
     positionals := [] |}.

(* a schema with an integer flag and an integer positional *)
Definition typed_schema : ArgParser :=
  {| prog := "prog"; description := ""; epilog := "";
     arguments :=
       [ help_flag; mkArg "level" "l" TInt VNone false "" [] "" "store" "" "" ];
     positionals := [ mkPositional "port" TInt "" "" VNone [] ] |}.

(* a count flag and a positional that share the destination "n" *)
Definition shared_schema : ArgParser :=
  {| prog := "prog"; description := ""; epilog := "";
     arguments :=
       [ help_flag; mkArg "n" "" TStr VNone false "" [] "" "count" "" "" ];
     positionals := [ Positional_default "n" ] |}.

(** ** Lookup *)

(* arg.dest or arg.name *)
Definition dest_of (a : Arg) : string :=
  if String.eqb (arg_dest a) "" then arg_name a else arg_dest a.

(* ArgParser._find_arg *)
Definition _find_arg (self : ArgParser) (name : string) : option Arg :=
  List.find (fun a => String.eqb (arg_name a) name || String.eqb (arg_dest a) name)
            (arguments self).

(* ArgParser._find_arg_short *)
Definition _find_arg_short (self : ArgParser) (short : string) : option Arg :=
  List.find (fun a => String.eqb (arg_short a) short) (arguments self).

(* arg_def.action in ("store_true", "store_false", "count") *)
Definition no_value_action (a : Arg) : bool :=
  str_in (arg_action a) ["store_true"; "store_false"; "count"].

(** ** Type coercion *)

(* ArgParser._convert *)
Definition _convert (v : string) (typ : pytype) : outcome value :=
  match typ with
  | TBool => Returned (VBool (str_in (lower v) ["true"; "1"; "yes"; "on"]))
  | TStr => Returned (VStr v)
  | TInt => match int_of_str v with
            | Some n => Returned (VInt n)
            | None => Raised (ValueError TInt v)
            end
  | TFloat => match float_of_str v with
              | Some x => Returned (VFloat x)
              | None => Raised (ValueError TFloat v)
              end
  end.

(* the token is not a literal of the numeric type *)
Definition malformed (v : string) (typ : pytype) : Prop :=
  match typ with
  | TInt => int_of_str v = None
  | TFloat => float_of_str v = None
  | TStr | TBool => False
  end.

(* equality of two strings up to the case of their letters *)
Fixpoint eq_nocase (s t : string) : bool :=
  match s, t with
  | EmptyString, EmptyString => true
  | String a s', String b t' =>
      Ascii.eqb (lower_ascii a) (lower_ascii b) && eq_nocase s' t'
  | _, _ => false
  end.

(** ** Value resolution and storage *)

(* args[i]; every use is guarded by a comparison of [i] with len(args) *)
Definition item (args : list string) (i : nat) : string := nth i args "".

(* ArgParser._process_arg *)
Definition _process_arg (arg_def : Arg) (args : list string) (i : nat)
    (v : option string) : outcome (nat * value) :=
  if no_value_action arg_def then Returned (i, VNone)
  else
    match v with
    | Some s => let* c := _convert s (arg_type arg_def) in Returned (i, c)
    | None =>
        if String.eqb (arg_nargs arg_def) "?"
           && ((length args <=? i + 1) || startswith "-" (item args (i + 1)))
        then Returned (i, arg_default arg_def)
        else
          let i := i + 1 in
          if length args <=? i
          then Raised (ArgError (Argument_requires_value (arg_name arg_def)))
          else let* c := _convert (item args i) (arg_type arg_def) in Returned (i, c)
    end.

(* the scratch dictionary [collected]: keys are unique, order is insertion order *)
Definition scratch : Type := list (string * list value).

(* if dest not in collected: collected[dest] = []
   collected[dest].append(value) *)
Fixpoint collect (collected : scratch) (dest : string) (v : value) : scratch :=
  match collected with
  | [] => [(dest, [v])]
  | (k, vs) :: rest =>
      if String.eqb k dest then (k, vs ++ [v]) :: rest
      else (k, vs) :: collect rest dest v
  end.

(* collected.get(dest) *)
Fixpoint scratch_get (collected : scratch) (dest : string) : option (list value) :=
  match collected with
  | [] => None
  | (k, vs) :: rest => if String.eqb k dest then Some vs else scratch_get rest dest
  end.

Definition set_arg (result : ParsedArgs) (dest : string) (v : value) : ParsedArgs :=
  {| r_args := <[dest := v]> (r_args result);
     r_positionals := r_positionals result;
     r_remaining := r_remaining result |}.

Definition set_remaining (result : ParsedArgs) (l : list string) : ParsedArgs :=
  {| r_args := r_args result;
     r_positionals := r_positionals result;
     r_remaining := l |}.

(* ArgParser._store_value *)
Definition _store_value (result : ParsedArgs) (arg_def : Arg) (v : value)
    (collected : scratch) : outcome (ParsedArgs * scratch) :=
  let dest := dest_of arg_def in
  if String.eqb (arg_action arg_def) "store_true" then
    Returned (set_arg result dest (VBool true), collected)
  else if String.eqb (arg_action arg_def) "store_false" then
    Returned (set_arg result dest (VBool false), collected)
  else if String.eqb (arg_action arg_def) "count" then
    match py_add1 (default (VInt 0) (r_args result !! dest)) with
    | Some n => Returned (set_arg result dest n, collected)
    | None => Raised TypeError
    end
  else if String.eqb (arg_action arg_def) "append"
          || str_in (arg_nargs arg_def) ["*"; "+"] then
    Returned (result, collect collected dest v)
  else if match arg_choices arg_def with [] => false | _ => true end
          && negb (py_in v (arg_choices arg_def)) then
    Raised (ArgError (Invalid_choice_for (arg_name arg_def) v))
  else
    Returned (set_arg result dest v, collected).

(** ** Defaults and validation *)

(* the value _apply_defaults writes for one flag *)
Definition initial_value (a : Arg) : value :=
  if String.eqb (arg_action a) "store_true" then VBool false
  else if String.eqb (arg_action a) "store_false" then VBool true
  else if String.eqb (arg_action a) "count" then VInt 0
  else arg_default a.

(* ArgParser._apply_defaults *)
Definition _apply_defaults (self : ArgParser) (result : ParsedArgs) : ParsedArgs :=
  fold_left (fun r a => set_arg r (dest_of a) (initial_value a))
            (arguments self) result.

(* result.args.get(dest) is None *)
Definition is_none (o : option value) : bool :=
  match o with
  | None | Some VNone => true
  | Some _ => false
  end.

(* the loop of ArgParser._validate over the flags still to check *)
Fixpoint validate_from (l : list Arg) (result : ParsedArgs) : outcome unit :=
  match l with
  | [] => Returned tt
  | a :: l' =>
      if arg_required a && is_none (r_args result !! dest_of a)
      then Raised (ArgError (Required_argument (arg_name a)))
      else validate_from l' result
  end.

(* ArgParser._validate *)
Definition _validate (self : ArgParser) (result : ParsedArgs) : outcome unit :=
  validate_from (arguments self) result.

(* some flag marked required has a destination that is None or absent *)
Definition required_missing (self : ArgParser) (result : ParsedArgs) : Prop :=
  ∃ a, a ∈ arguments self ∧ arg_required a = true
       ∧ is_none (r_args result !! dest_of a) = true.

(** ** The scan *)

(* the local variables of [parse] that the loop updates *)
Record frame : Type := mkFrame {
  f_i : nat;
  f_pos_idx : nat;
  f_collected : scratch;
  f_result : ParsedArgs;
}.

(* what the scan writes to: the result and the scratch dictionary *)
Definition state_of (f : frame) : ParsedArgs * scratch := (f_result f, f_collected f).

(* the keys of the result only grow *)
Definition keys_grow (s1 s2 : ParsedArgs * scratch) : Prop :=
  dom (r_args s1.1) ⊆ dom (r_args s2.1).

(* for j, short in enumerate(arg[1:]): ...   over the characters still to
   visit; [j] is the index of the first of them *)
Fixpoint cluster (self : ArgParser) (args : list string) (arg : string)
    (chars : list ascii) (j : nat) (f : frame) : outcome frame :=
  match chars with
  | [] => Returned f
  | c :: chars' =>
      let short := String c EmptyString in
      match _find_arg_short self short with
      | None => Raised (ArgError (Unknown_argument_short short))
      | Some arg_def =>
          if no_value_action arg_def then
            let* (result, collected) :=
              _store_value (f_result f) arg_def VNone (f_collected f) in
            cluster self args arg chars' (S j)
              (mkFrame (f_i f) (f_pos_idx f) collected result)
          else if j =? String.length arg - 2 then
            let* (i, v) := _process_arg arg_def args (f_i f) None in
            let* (result, collected) :=
              _store_value (f_result f) arg_def v (f_collected f) in
            cluster self args arg chars' (S j)
              (mkFrame i (f_pos_idx f) collected result)
          else Raised (ArgError (Option_requires_value short))
      end
  end.

(* _store_value(result, arg_def, None, collected) for each flag in turn *)
Fixpoint store_flags (l : list Arg) (f : frame) : outcome frame :=
  match l with
  | [] => Returned f
  | arg_def :: l' =>
      let* (result, collected) :=
        _store_value (f_result f) arg_def VNone (f_collected f) in
      store_flags l' (mkFrame (f_i f) (f_pos_idx f) collected result)
  end.

(* the character is the short of a flag that takes no value *)
Definition no_value_short (self : ArgParser) (c : ascii) (arg_def : Arg) : Prop :=
  _find_arg_short self (String c EmptyString) = Some arg_def
  ∧ no_value_action arg_def = true.

(* the branch for a token that starts with "--" *)
Definition long_flag (self : ArgParser) (args : list string) (arg : string)
    (f : frame) : outcome frame :=
  let key := str_from 2 arg in
  let '(key, v) := match split_eq key with
                   | Some (k, v) => (k, Some v)
                   | None => (key, None)
                   end in
  match _find_arg self key with
  | None => Raised (ArgError (Unknown_argument_long key))
  | Some arg_def =>
      let* (i, v) := _process_arg arg_def args (f_i f) v in
      let* (result, collected) :=
        _store_value (f_result f) arg_def v (f_collected f) in
      Returned (mkFrame i (f_pos_idx f) collected result)
  end.

(* the branch for a bare token *)
Definition bare_token (self : ArgParser) (arg : string) (f : frame) : outcome frame :=
  (* pos_idx < len(self.positionals) exactly when the lookup is defined *)
  match positionals self !! f_pos_idx f with
  | Some pos_def =>
      let* v := _convert arg (pos_type pos_def) in
      if match pos_choices pos_def with [] => false | _ => true end
         && negb (py_in v (pos_choices pos_def)) then
        Raised (ArgError (Invalid_choice v))
      else if str_in (pos_nargs pos_def) ["*"; "+"] then
        Returned (mkFrame (f_i f) (f_pos_idx f)
                    (collect (f_collected f) (pos_name pos_def) v) (f_result f))
      else
        Returned (mkFrame (f_i f) (f_pos_idx f + 1) (f_collected f)
                    (set_arg (f_result f) (pos_name pos_def) v))
  | None =>
      Returned (mkFrame (f_i f) (f_pos_idx f) (f_collected f)
                  (set_remaining (f_result f) (r_remaining (f_result f) ++ [arg])))
  end.

(* how one turn of the while loop ends *)
Inductive flow : Type :=
| Break (f : frame)
| Next (f : frame).

Definition step_i (f : frame) : frame :=
  mkFrame (f_i f + 1) (f_pos_idx f) (f_collected f) (f_result f).

(* the body of [while i < len(args)], up to and including [i += 1] *)
Definition loop_body (self : ArgParser) (args : list string) (f : frame) : outcome flow :=
  let arg := item args (f_i f) in
  if String.eqb arg "--" then
    Returned (Break (mkFrame (f_i f) (f_pos_idx f) (f_collected f)
                       (set_remaining (f_result f) (drop (f_i f + 1) args))))
  else if startswith "--" arg then
    let* f' := long_flag self args arg f in Returned (Next (step_i f'))
  else if startswith "-" arg && (1 <? String.length arg) then
    let* f' := cluster self args arg (list_ascii_of_string (str_from 1 arg)) 0 f in
    Returned (Next (step_i f'))
  else
    let* f' := bare_token self arg f in Returned (Next (step_i f')).

(* while i < len(args): ...   [fuel] bounds the number of turns *)
Fixpoint parse_loop (fuel : nat) (self : ArgParser) (args : list string)
    (f : frame) : outcome frame :=
  match fuel with
  | O => Returned f
  | S fuel' =>
      if f_i f <? length args then
        let* r := loop_body self args f in
        match r with
        | Break f' => Returned f'
        | Next f' => parse_loop fuel' self args f'
        end
      else Returned f
  end.

(* the frames the scan passes through at the top of the loop *)
Inductive reaches (self : ArgParser) (args : list string) : frame → frame → Prop :=
| reaches_here f : reaches self args f f
| reaches_next f f1 f2 :
    f_i f < length args →
    loop_body self args f = Returned (Next f1) →
    reaches self args f1 f2 →
    reaches self args f f2.

(* for name, values in collected.items(): result.args[name] = values *)
Definition flush (collected : scratch) (result : ParsedArgs) : ParsedArgs :=
  fold_left (fun r kv => set_arg r (fst kv) (VList (snd kv))) collected result.

Definition empty_result : ParsedArgs :=
  {| r_args := ∅; r_positionals := []; r_remaining := [] |}.

(* the frame the loop starts from *)
Definition start (self : ArgParser) : frame :=
  mkFrame 0 0 [] (_apply_defaults self empty_result).

(* the end of [parse], after the scan: flush, help, validation *)
Definition finish (self : ArgParser) (f : frame) : outcome ParsedArgs :=
  let result := flush (f_collected f) (f_result f) in
  if truthy (default VNone (r_args result !! "help")) then
    (* self.print_help() writes to stdout, which is not modelled *)
    Raised (SystemExit 0)
  else
    let* _ := _validate self result in
    Returned result.

(* ArgParser.parse, called with an explicit argument list.  Every turn of
   the loop adds at least one to [i], so len(args) turns are enough. *)
Definition parse (self : ArgParser) (args : list string) : outcome ParsedArgs :=
  let* f := parse_loop (length args) self args (start self) in
  finish self f.

(** ** The result view *)

(* ParsedArgs.get *)
Definition get (self : ParsedArgs) (name : string) (fallback : value) : value :=
  default fallback (r_args self !! name).

(* what ParsedArgs.__getattr__ can return: one of the three fields, or a
   parsed value *)
Inductive attribute : Type :=
| Attr_args (m : gmap string value)
| Attr_positionals (l : list value)
| Attr_remaining (l : list string)
| Attr_value (v : value).

(* ParsedArgs.__getattr__ *)
Definition __getattr__ (self : ParsedArgs) (name : string) : attribute :=
  if String.eqb name "args" then Attr_args (r_args self)
  else if String.eqb name "positionals" then Attr_positionals (r_positionals self)
  else if String.eqb name "remaining" then Attr_remaining (r_remaining self)
  else Attr_value (get self name VNone).

(** ** Notions used to state what the scan does *)

(* the schemas the interface builds: __init__, then any number of
   add_argument and add_positional *)
Inductive built : ArgParser → Prop :=
| built_init argv0 prog_ description_ epilog_ p :
    init argv0 prog_ description_ epilog_ = Returned p → built p
| built_argument p a p' :
    built p → add_argument p a = Returned p' → built p'
| built_positional p x p' :
    built p → add_positional p x = Returned p' → built p'.

(* a token that does not start with a dash *)
Definition bare (tok : string) : Prop := startswith "-" tok = false.

(* a positional of type str, without choices, that takes one token *)
Definition single_plain (p : Positional) : Prop :=
  pos_type p = TStr ∧ pos_choices p = []
  ∧ str_in (pos_nargs p) ["*"; "+"] = false.

(* a positional of type str, without choices, with nargs "*" or "+" *)
Definition multi_plain (p : Positional) : Prop :=
  pos_type p = TStr ∧ pos_choices p = []
  ∧ str_in (pos_nargs p) ["*"; "+"] = true.

(* a flag of type str with action store, one value and no choices *)
Definition plain_store (a : Arg) : Prop :=
  arg_action a = "store" ∧ arg_nargs a = "" ∧ arg_type a = TStr
  ∧ arg_choices a = [].

(* a flag of type str with action append and one value for each occurrence *)
Definition plain_append (a : Arg) : Prop :=
  arg_action a = "append" ∧ arg_nargs a = "" ∧ arg_type a = TStr.

(* result.args[p.name] = token, for the positionals and the tokens in step *)
Fixpoint fill (ps : list Positional) (toks : list string) (r : ParsedArgs)
    : ParsedArgs :=
  match ps, toks with
  | p :: ps', t :: toks' => fill ps' toks' (set_arg r (pos_name p) (VStr t))
  | _, _ => r
  end.

(* the text of a long-flag token between the two dashes and the first "=" *)
Definition long_key (arg : string) : string :=
  match split_eq (str_from 2 arg) with
  | Some (k, _) => k
  | None => str_from 2 arg
  end.

(* the name matches neither the name nor the dest of the flag *)
Definition unmatched (name : string) (a : Arg) : Prop :=
  arg_name a ≠ name ∧ arg_dest a ≠ name.

(* the tokens --key v1 --key v2 ... *)
Definition occurrences (key : string) (vs : list string) : list string :=
  flat_map (fun v => ["--" +:+ key; v]) vs.

(* two schemas with the same flags and, position by position, positionals
   with the same name, type, nargs and choices *)
Definition same_for_scan (self self' : ArgParser) : Prop :=
  arguments self = arguments self'
  ∧ Forall2 (λ p p', pos_name p = pos_name p' ∧ pos_type p = pos_type p'
                     ∧ pos_nargs p = pos_nargs p'
                     ∧ pos_choices p = pos_choices p')
      (positionals self) (positionals self').

(* a schema with an append flag that has choices *)
Definition tags_schema : ArgParser :=
  {| prog := "prog"; description := ""; epilog := "";
     arguments :=
       [ help_flag;
         mkArg "tag" "t" TStr VNone false "" [VStr "x"] "" "append" "" "" ];
     positionals := [] |}.

(* a schema with two single positionals *)
Definition copy_schema : ArgParser :=
  {| prog := "prog"; description := ""; epilog := "";
     arguments := [ help_flag ];
     positionals := [ Positional_default "src"; Positional_default "dst" ] |}.

(* the schema of example_usage with other defaults and help texts for its
   positionals, and other texts for the parser *)
Definition demo_schema_variant : ArgParser :=
  {| prog := "other"; description := ""; epilog := "";
     arguments := arguments demo_schema;
     positionals :=
       [ mkPositional "input" TStr "" "" (VStr "in.txt") [];
         mkPositional "extra" TStr "" "*" (VList []) [] ] |}.

End RoadArg.

(** ** The help text *)

Section Help.
Context `{Builtins}.
(* str.upper, a builtin of the language *)
Variable upper : string → string.

Definition newline : string := String (ascii_of_nat 10) EmptyString.

(* f"{s:width}": the string, then spaces up to [width] characters *)
Definition ljust (s : string) (width : nat) : string :=
  s +:+ string_of_list_ascii (replicate (width - String.length s) " "%char).

Fixpoint concat_str (l : list string) : string :=
  match l with
  | [] => EmptyString
  | s :: l' => s +:+ concat_str l'
  end.

(* what the loop over the positionals prints on the usage line *)
Definition usage_item (pos : Positional) : string :=
  if str_in (pos_nargs pos) ["*"; "?"] then " [" +:+ upper (pos_name pos) +:+ "]"
  else if String.eqb (pos_nargs pos) "+" then " " +:+ upper (pos_name pos) +:+ "..."
  else " " +:+ upper (pos_name pos).

(* print(f"  {pos.name:20} {pos.help}") *)
Definition positional_line (pos : Positional) : string :=
  "  " +:+ ljust (pos_name pos) 20 +:+ " " +:+ pos_help pos +:+ newline.

(* the variable [flags] of the loop over the arguments *)
Definition option_flags (arg : Arg) : string :=
  let flags := "--" +:+ arg_name arg in
  let flags := if String.eqb (arg_short arg) "" then flags
               else "-" +:+ arg_short arg +:+ ", " +:+ flags in
  if String.eqb (arg_metavar arg) "" then flags
  else flags +:+ " " +:+ arg_metavar arg.

(* print(f"  {flags:25} {arg.help}") *)
Definition option_line (arg : Arg) : string :=
  "  " +:+ ljust (option_flags arg) 25 +:+ " " +:+ arg_help arg +:+ newline.

(* ArgParser.print_help: the text written to stdout *)
Definition print_help (self : ArgParser) : string :=
  "Usage: " +:+ prog self +:+ " [OPTIONS]"
  +:+ concat_str (map usage_item (positionals self)) +:+ newline
  +:+ (if String.eqb (description self) "" then ""
       else newline +:+ description self +:+ newline)
  +:+ match positionals self with
      | [] => ""
      | _ => newline +:+ "Positional arguments:" +:+ newline
             +:+ concat_str (map positional_line (positionals self))
      end
  +:+ newline +:+ "Options:" +:+ newline
  +:+ concat_str (map option_line (arguments self))
  +:+ (if String.eqb (epilog self) "" then ""
       else newline +:+ epilog self +:+ newline).

End Help.

Notation "'let*' x ':=' m 'in' k" := (bind m (fun x => k))
  (at level 10, x pattern, m at level 100, k at level 200, only parsing).

(** ** A concrete instance of the builtins, to evaluate the parser

    Decimal integers with an optional sign; floats are restricted to the
    same literals. *)

Definition digit_of (c : ascii) : option Z :=
  let n := nat_of_ascii c in
  if (48 <=? n) && (n <=? 57) then Some (Z.of_nat (n - 48)) else None.

Fixpoint digits (acc : Z) (s : string) : option Z :=
  match s with
  | EmptyString => Some acc
  | String c s' =>
      match digit_of c with
      | Some d => digits (10 * acc + d)%Z s'
      | None => None
      end
  end.

Definition decimal (s : string) : option Z :=
  match s with
  | EmptyString => None
  | String "-" (String _ _ as s') => option_map Z.opp (digits 0 s')
  | String "+" (String _ _ as s') => digits 0 s'
  | _ => digits 0 s
  end.

Definition decimal_builtins : Builtins :=
  {| pyfloat := Z;
     int_of_str := decimal;
     float_of_str := decimal;
     float_eqb := Z.eqb;
     float_eq_int := Z.eqb;
     float_nonzero := fun x => negb (Z.eqb x 0);
     float_succ := Z.succ |}.

(** * Properties *)

Section Properties.
Context `{Builtins}.

Implicit Types (self : ArgParser) (args : list string) (f : frame)
  (result r : ParsedArgs) (collected : scratch) (a arg_def : Arg).

(** ** The error monad *)

Lemma bind_Returned {A B} (m : outcome A) (k : A → outcome B) (b : B) :
  bind m k = Returned b ↔ ∃ x, m = Returned x ∧ k x = Returned b.
Proof.
  destruct m as [x|e]; simpl; split.
  - intros Hk. exists x. split; [reflexivity | exact Hk].
  - intros (y & Hy & Hk). injection Hy as ->. exact Hk.
  - discriminate.
  - intros (y & Hy & _). discriminate.
Qed.

Ltac unbind H :=
  let x := fresh "x" in
  let Hx := fresh "Hx" in
  apply bind_Returned in H; destruct H as (x & Hx & H).

(** ** Strings *)

(* the key has no "=": splitting key=value gives back the key and the value *)
Lemma split_eq_app (key val : string) :
  split_eq key = None → split_eq (key +:+ "=" +:+ val) = Some (key, val).
Proof.
  induction key as [|c key IH]; simpl; [reflexivity|].
  destruct (Ascii.eqb c "=") eqn:Hc; [discriminate|].
  destruct (split_eq key) as [[k v]|] eqn:Hs; [discriminate|].
  intros _. rewrite IH; reflexivity.
Qed.

Lemma str_in_true (x : string) (l : list string) : str_in x l = true ↔ x ∈ l.
Proof.
  unfold str_in. rewrite existsb_exists. split.
  - intros (y & Hy & Heq). apply String.eqb_eq in Heq. subst y.
    by apply list_elem_of_In.
  - intros Hx. exists x. split; [by apply list_elem_of_In | apply String.eqb_refl].
Qed.

(** ** What the scan does to the result and to the scratch dictionary

    Every write of the scan is one of [set_arg], [set_remaining] and
    [collect]; a relation that these three respect holds between the state
    before and after any number of turns. *)

Section Scan_relation.
Variable R : ParsedArgs * scratch → ParsedArgs * scratch → Prop.
Hypothesis R_refl : ∀ s, R s s.
Hypothesis R_trans : ∀ s1 s2 s3, R s1 s2 → R s2 s3 → R s1 s3.
Hypothesis R_set_arg : ∀ r c k v, R (r, c) (set_arg r k v, c).
Hypothesis R_set_remaining : ∀ r c l, R (r, c) (set_remaining r l, c).
Hypothesis R_collect : ∀ r c k v, R (r, c) (r, collect c k v).

Lemma store_value_rel result arg_def v collected r' c' :
  _store_value result arg_def v collected = Returned (r', c') →
  R (result, collected) (r', c').
Proof using R_set_arg R_collect.
  unfold _store_value. intros Hs.
  repeat match type of Hs with
         | (if ?b then _ else _) = _ => destruct b
         | match ?o with Some _ => _ | None => _ end = _ => destruct o
         end;
    try discriminate; injection Hs as <- <-; auto.
Qed.

Lemma cluster_rel self args arg chars j f f' :
  cluster self args arg chars j f = Returned f' →
  R (state_of f) (state_of f').
Proof using R_refl R_trans R_set_arg R_collect.
  revert j f. induction chars as [|c chars IH]; simpl; intros j f Hc.
  - injection Hc as <-. apply R_refl.
  - destruct (_find_arg_short self _) as [arg_def|]; [|discriminate].
    destruct (no_value_action arg_def).
    + unbind Hc. destruct x as [r1 c1].
      apply store_value_rel in Hx. apply IH in Hc.
      eapply R_trans; [exact Hx | exact Hc].
    + destruct (j =? _); [|discriminate].
      unbind Hc. destruct x as [i1 v1]. unbind Hc. destruct x as [r1 c1].
      apply store_value_rel in Hx0. apply IH in Hc.
      eapply R_trans; [exact Hx0 | exact Hc].
Qed.

Lemma long_flag_rel self args arg f f' :
  long_flag self args arg f = Returned f' → R (state_of f) (state_of f').
Proof using R_set_arg R_collect.
  unfold long_flag. intros Hl.
  destruct (match split_eq _ with Some _ => _ | None => _ end) as [key v].
  destruct (_find_arg self key) as [arg_def|]; [|discriminate].
  unbind Hl. destruct x as [i1 v1]. unbind Hl. destruct x as [r1 c1].
  injection Hl as <-. by apply store_value_rel in Hx0.
Qed.

Lemma bare_token_rel self arg f f' :
  bare_token self arg f = Returned f' → R (state_of f) (state_of f').
Proof using R_set_arg R_set_remaining R_collect.
  unfold bare_token. intros Hb.
  destruct (positionals self !! f_pos_idx f) as [pos_def|].
  - unbind Hb.
    repeat match type of Hb with
           | (if ?b then _ else _) = _ => destruct b
           end;
      try discriminate; injection Hb as <-; unfold state_of; simpl; auto.
  - injection Hb as <-. unfold state_of; simpl; auto.
Qed.

Lemma loop_body_rel self args f w :
  loop_body self args f = Returned w →
  R (state_of f) (state_of (match w with Break f' | Next f' => f' end)).
Proof using All.
  unfold loop_body. intros Hb.
  destruct (String.eqb _ "--").
  { injection Hb as <-. unfold state_of; simpl; auto. }
  destruct (startswith "--" _).
  { unbind Hb. injection Hb as <-. by apply long_flag_rel in Hx. }
  destruct (_ && _).
  { unbind Hb. injection Hb as <-. by apply cluster_rel in Hx. }
  unbind Hb. injection Hb as <-. by apply bare_token_rel in Hx.
Qed.

Lemma parse_loop_rel fuel self args f f' :
  parse_loop fuel self args f = Returned f' → R (state_of f) (state_of f').
Proof using All.
  revert f. induction fuel as [|fuel IH]; simpl; intros f Hp.
  - injection Hp as <-. apply R_refl.
  - destruct (f_i f <? length args).
    + unbind Hp. apply loop_body_rel in Hx. destruct x as [f1|f1].
      * injection Hp as <-. exact Hx.
      * eapply R_trans; [exact Hx | by apply IH].
    + injection Hp as <-. apply R_refl.
Qed.

Lemma apply_defaults_rel self r c : R (r, c) (_apply_defaults self r, c).
Proof using R_refl R_trans R_set_arg.
  unfold _apply_defaults. generalize (arguments self) as l. intros l.
  revert r. induction l as [|a l IH]; simpl; intros r; [apply R_refl|].
  eapply R_trans; [apply R_set_arg | apply IH].
Qed.

Lemma flush_rel collected r c : R (r, c) (flush collected r, c).
Proof using R_refl R_trans R_set_arg.
  unfold flush. revert r.
  induction collected as [|kv l IH]; simpl; intros r; [apply R_refl|].
  eapply R_trans; [apply R_set_arg | apply IH].
Qed.
End Scan_relation.

(** ** The loop terminates within len(args) turns *)

Lemma process_arg_index arg_def args i v i' x :
  _process_arg arg_def args i v = Returned (i', x) → i ≤ i' ≤ i + 1.
Proof.
  unfold _process_arg. intros Hp.
  destruct (no_value_action arg_def); [injection Hp as <- <-; lia|].
  destruct v as [s|].
  - unbind Hp. injection Hp as <- <-; lia.
  - destruct (_ && _); [injection Hp as <- <-; lia|].
    destruct (length args <=? i + 1); [discriminate|].
    unbind Hp. injection Hp as <- <-; lia.
Qed.

Lemma cluster_index self args arg chars j f f' :
  cluster self args arg chars j f = Returned f' → f_i f ≤ f_i f'.
Proof.
  revert j f. induction chars as [|c chars IH]; simpl; intros j f Hc.
  - injection Hc as <-. lia.
  - destruct (_find_arg_short self _) as [arg_def|]; [|discriminate].
    destruct (no_value_action arg_def).
    + unbind Hc. destruct x as [r1 c1]. apply IH in Hc. exact Hc.
    + destruct (j =? _); [|discriminate].
      unbind Hc. destruct x as [i1 v1]. unbind Hc. destruct x as [r1 c1].
      apply process_arg_index in Hx. apply IH in Hc. simpl in Hc. lia.
Qed.

Lemma long_flag_index self args arg f f' :
  long_flag self args arg f = Returned f' → f_i f ≤ f_i f'.
Proof.
  unfold long_flag. intros Hl.
  destruct (match split_eq _ with Some _ => _ | None => _ end) as [key v].
  destruct (_find_arg self key) as [arg_def|]; [|discriminate].
  unbind Hl. destruct x as [i1 v1]. unbind Hl. destruct x as [r1 c1].
  injection Hl as <-. apply process_arg_index in Hx. simpl. lia.
Qed.

Lemma bare_token_index self arg f f' :
  bare_token self arg f = Returned f' → f_i f' = f_i f.
Proof.
  unfold bare_token. intros Hb.
  destruct (positionals self !! f_pos_idx f) as [pos_def|].
  - unbind Hb.
    repeat match type of Hb with
           | (if ?b then _ else _) = _ => destruct b
           end;
      try discriminate; injection Hb as <-; reflexivity.
  - injection Hb as <-. reflexivity.
Qed.

Lemma loop_body_index self args f f' :
  loop_body self args f = Returned (Next f') → f_i f < f_i f'.
Proof.
  unfold loop_body. intros Hb.
  destruct (String.eqb _ "--"); [discriminate|].
  destruct (startswith "--" _).
  { unbind Hb. injection Hb as <-. apply long_flag_index in Hx. simpl. lia. }
  destruct (_ && _).
  { unbind Hb. injection Hb as <-. apply cluster_index in Hx. simpl. lia. }
  unbind Hb. injection Hb as <-. apply bare_token_index in Hx. simpl. lia.
Qed.

(* more fuel than the tokens left changes nothing *)
Lemma parse_loop_fuel self args fuel1 fuel2 f :
  length args - f_i f ≤ fuel1 → length args - f_i f ≤ fuel2 →
  parse_loop fuel1 self args f = parse_loop fuel2 self args f.
Proof.
  revert fuel2 f. induction fuel1 as [|fuel1 IH]; intros fuel2 f H1 H2.
  - assert (Hge : (f_i f <? length args) = false) by (apply Nat.ltb_ge; lia).
    destruct fuel2; simpl; [reflexivity | by rewrite Hge].
  - destruct fuel2 as [|fuel2]; simpl.
    + assert (Hge : (f_i f <? length args) = false) by (apply Nat.ltb_ge; lia).
      by rewrite Hge.
    + destruct (f_i f <? length args) eqn:Hlt; [|reflexivity].
      destruct (loop_body self args f) as [[f1|f1]|e] eqn:Hb; simpl;
        [reflexivity| |reflexivity].
      apply loop_body_index in Hb. apply IH; lia.
Qed.

(* the loop of [parse] stops because [i] reached len(args) or at a "--" *)
Lemma parse_loop_exit self args fuel f f' :
  length args - f_i f ≤ fuel →
  parse_loop fuel self args f = Returned f' →
  length args ≤ f_i f' ∨ item args (f_i f') = "--".
Proof.
  revert f. induction fuel as [|fuel IH]; simpl; intros f Hfuel Hp.
  - injection Hp as <-. lia.
  - destruct (f_i f <? length args) eqn:Hlt.
    + unbind Hp. destruct x as [f1|f1].
      * injection Hp as <-. right.
        unfold loop_body in Hx.
        destruct (String.eqb (item args (f_i f)) "--") eqn:Harg.
        -- injection Hx as <-. simpl. by apply String.eqb_eq.
        -- repeat match type of Hx with
                  | (if ?b then _ else _) = _ => destruct b
                  end; unbind Hx; discriminate.
      * apply loop_body_index in Hx. apply (IH f1); [lia | exact Hp].
    + injection Hp as <-. apply Nat.ltb_ge in Hlt. by left.
Qed.

(** ** The end of [parse] *)

Lemma finish_Returned self f r :
  finish self f = Returned r →
  r = flush (f_collected f) (f_result f)
  ∧ truthy (default VNone (r_args r !! "help")) = false
  ∧ _validate self r = Returned tt.
Proof.
  unfold finish. intros Hf.
  destruct (truthy _) eqn:Hhelp; [discriminate|].
  destruct (_validate self _) as [[]|e] eqn:Hv; [|discriminate].
  simpl in Hf. injection Hf as <-. auto.
Qed.

Lemma parse_Returned self args r :
  parse self args = Returned r →
  ∃ f, parse_loop (length args) self args (start self) = Returned f
       ∧ finish self f = Returned r.
Proof. unfold parse. intros Hp. unbind Hp. eauto. Qed.

(** ** Default population *)

Lemma defaults_other (l : list Arg) r k :
  Forall (λ b, dest_of b ≠ k) l →
  r_args (fold_left (λ r a, set_arg r (dest_of a) (initial_value a)) l r) !! k
  = r_args r !! k.
Proof.
  intros Hl. revert r. induction Hl as [|b l Hb _ IH]; intros r; simpl.
  - reflexivity.
  - rewrite IH. simpl. by apply lookup_insert_ne.
Qed.

(* each flag writes its initial value; the last write to a key stays *)
Lemma defaults_last (pre post : list Arg) a r :
  Forall (λ b, dest_of b ≠ dest_of a) post →
  r_args (fold_left (λ r a, set_arg r (dest_of a) (initial_value a))
            (pre ++ a :: post) r) !! dest_of a
  = Some (initial_value a).
Proof.
  intros Hpost. rewrite fold_left_app. simpl.
  rewrite defaults_other by exact Hpost. simpl. apply lookup_insert_eq.
Qed.

Lemma defaults_keys (l : list Arg) r :
  dom (r_args r)
  ⊆ dom (r_args (fold_left (λ r a, set_arg r (dest_of a) (initial_value a)) l r)).
Proof.
  revert r. induction l as [|b l IH]; simpl; intros r; [done|].
  etrans; [|apply IH]. simpl. rewrite dom_insert_L. set_solver.
Qed.

Lemma defaults_declared self r a :
  a ∈ arguments self → is_Some (r_args (_apply_defaults self r) !! dest_of a).
Proof.
  unfold _apply_defaults. generalize (arguments self) as l. intros l Ha.
  revert r. induction Ha as [a l|a b l Ha IH]; intros r; simpl.
  - apply elem_of_dom, defaults_keys, elem_of_dom. simpl.
    rewrite lookup_insert_eq. eauto.
  - apply IH.
Qed.

Lemma parse_loop_keys fuel self args f f' :
  parse_loop fuel self args f = Returned f' →
  dom (r_args (f_result f)) ⊆ dom (r_args (f_result f')).
Proof.
  apply (parse_loop_rel keys_grow); unfold keys_grow; simpl; intros.
  - done.
  - etrans; eassumption.
  - rewrite dom_insert_L. set_solver.
  - done.
  - done.
Qed.

Lemma flush_keys collected r : dom (r_args r) ⊆ dom (r_args (flush collected r)).
Proof.
  refine (flush_rel keys_grow _ _ _ collected r []); unfold keys_grow; simpl; intros.
  - done.
  - etrans; eassumption.
  - rewrite dom_insert_L. set_solver.
Qed.

(** C1. Default population: [_apply_defaults] writes, for every declared
    flag, its destination key ([dest] if set, else [name]) with [False] for
    store_true, [True] for store_false, [0] for count and the configured
    default otherwise (when two flags share a destination the later flag's
    value stays); the scan and the flush only add keys, so after every
    [parse] that returns, every declared destination key is present, and on
    an empty argument list the result map is exactly the map of defaults. *)
Theorem parse_populates_every_destination self :
  (∀ a, initial_value a =
        if String.eqb (arg_action a) "store_true" then VBool false
        else if String.eqb (arg_action a) "store_false" then VBool true
        else if String.eqb (arg_action a) "count" then VInt 0
        else arg_default a)
  ∧ (∀ pre a post, arguments self = pre ++ a :: post →
       Forall (λ b, dest_of b ≠ dest_of a) post →
       r_args (_apply_defaults self empty_result) !! dest_of a
       = Some (initial_value a))
  ∧ (∀ args r, parse self args = Returned r →
       ∀ a, a ∈ arguments self → is_Some (r_args r !! dest_of a))
  ∧ (∀ r, parse self [] = Returned r → r = _apply_defaults self empty_result).
Proof.
  split; [reflexivity|]. split; [|split].
  - intros pre a post Hargs Hpost. unfold _apply_defaults. rewrite Hargs.
    by apply defaults_last.
  - intros args r Hp a Ha.
    apply parse_Returned in Hp as (f & Hloop & Hfin).
    apply finish_Returned in Hfin as (-> & _ & _).
    apply elem_of_dom, flush_keys.
    apply (parse_loop_keys _ _ _ _ _ Hloop). simpl.
    apply elem_of_dom. by apply defaults_declared.
  - intros r Hp. apply parse_Returned in Hp as (f & Hloop & Hfin).
    simpl in Hloop. injection Hloop as <-.
    by apply finish_Returned in Hfin as (-> & _ & _).
Qed.

(** ** The scratch dictionary and the flush *)

Lemma collect_get collected k v :
  scratch_get (collect collected k v) k
  = Some (default [] (scratch_get collected k) ++ [v]).
Proof.
  induction collected as [|[k0 vs] rest IH]; simpl.
  - by rewrite String.eqb_refl.
  - destruct (String.eqb k0 k) eqn:Hk; simpl; rewrite Hk; [reflexivity | exact IH].
Qed.

Lemma collect_keys collected k v x :
  x ∈ (collect collected k v).*1 → x ∈ collected.*1 ∨ x = k.
Proof.
  induction collected as [|[k0 vs] rest IH]; simpl.
  - intros Hx. apply list_elem_of_singleton in Hx. by right.
  - destruct (String.eqb k0 k); simpl; [by left|].
    intros Hx. apply elem_of_cons in Hx as [-> | Hx].
    + left. apply elem_of_cons. by left.
    + destruct (IH Hx) as [?|?]; [left; apply elem_of_cons; by right | by right].
Qed.

Lemma collect_NoDup collected k v :
  NoDup collected.*1 → NoDup (collect collected k v).*1.
Proof.
  induction collected as [|[k0 vs] rest IH]; simpl; intros Hnd.
  - apply NoDup_singleton.
  - apply NoDup_cons in Hnd as [Hk0 Hnd].
    destruct (String.eqb k0 k) eqn:Hk; simpl.
    + by apply NoDup_cons.
    + apply NoDup_cons. split; [|by apply IH].
      intros Hin. apply collect_keys in Hin as [? | ->]; [done|].
      by rewrite String.eqb_refl in Hk.
Qed.

Lemma flush_other collected r k :
  k ∉ collected.*1 → r_args (flush collected r) !! k = r_args r !! k.
Proof.
  unfold flush. revert r.
  induction collected as [|[k0 vs] rest IH]; simpl; intros r Hk; [reflexivity|].
  apply not_elem_of_cons in Hk as [Hne Hk].
  rewrite IH by exact Hk. simpl. by apply lookup_insert_ne.
Qed.

(* after the flush a collected destination holds its list, in encounter order *)
Lemma flush_lookup collected r k vs :
  NoDup collected.*1 → scratch_get collected k = Some vs →
  r_args (flush collected r) !! k = Some (VList vs).
Proof.
  revert r. induction collected as [|[k0 vs0] rest IH]; simpl; intros r Hnd Hget;
    [discriminate|].
  apply NoDup_cons in Hnd as [Hk0 Hnd].
  destruct (String.eqb k0 k) eqn:Heq.
  - apply String.eqb_eq in Heq. subst k0. injection Hget as ->.
    change (r_args (flush rest (set_arg r k (VList vs))) !! k = Some (VList vs)).
    rewrite flush_other by exact Hk0. simpl. apply lookup_insert_eq.
  - by apply IH.
Qed.

Lemma parse_loop_scratch fuel self args f f' :
  parse_loop fuel self args f = Returned f' →
  NoDup (f_collected f).*1 → NoDup (f_collected f').*1.
Proof.
  apply (parse_loop_rel (λ s1 s2, NoDup s1.2.*1 → NoDup s2.2.*1)); simpl; auto.
  intros. by apply collect_NoDup.
Qed.

Lemma parse_loop_positionals fuel self args f f' :
  parse_loop fuel self args f = Returned f' →
  r_positionals (f_result f') = r_positionals (f_result f).
Proof.
  apply (parse_loop_rel (λ s1 s2, r_positionals s2.1 = r_positionals s1.1));
    simpl; auto.
  intros ??? -> ->. reflexivity.
Qed.

Lemma apply_defaults_positionals self r :
  r_positionals (_apply_defaults self r) = r_positionals r.
Proof.
  refine (apply_defaults_rel (λ s1 s2, r_positionals s2.1 = r_positionals s1.1)
            _ _ _ self r []); simpl; auto.
  intros ??? -> ->. reflexivity.
Qed.

Lemma flush_positionals collected r :
  r_positionals (flush collected r) = r_positionals r.
Proof.
  refine (flush_rel (λ s1 s2, r_positionals s2.1 = r_positionals s1.1)
            _ _ _ collected r []); simpl; auto.
  intros ??? -> ->. reflexivity.
Qed.

(** C9. [parse] never writes the [positionals] field of its result, so it
    is the empty list in every returned [ParsedArgs].  A bare token that
    fills a declared positional is stored in the args map under the
    positional's name: directly (and the cursor advances) when the
    positional is single-valued, and through the scratch list of that name
    (the cursor stays) when its nargs is "*" or "+"; every scratch list is
    written to the args map, in encounter order, by the flush after the
    scan. *)
Theorem parse_leaves_positionals_empty self :
  (∀ args r, parse self args = Returned r →
     r_positionals r = []
     ∧ ∃ f, parse_loop (length args) self args (start self) = Returned f
            ∧ ∀ k vs, scratch_get (f_collected f) k = Some vs →
                      r_args r !! k = Some (VList vs))
  ∧ (∀ arg f pos_def v,
       positionals self !! f_pos_idx f = Some pos_def →
       _convert arg (pos_type pos_def) = Returned v →
       pos_choices pos_def = [] ∨ py_in v (pos_choices pos_def) = true →
       ∃ f', bare_token self arg f = Returned f'
             ∧ r_positionals (f_result f') = r_positionals (f_result f)
             ∧ if str_in (pos_nargs pos_def) ["*"; "+"]
               then f_pos_idx f' = f_pos_idx f
                    ∧ f_result f' = f_result f
                    ∧ scratch_get (f_collected f') (pos_name pos_def)
                      = Some (default [] (scratch_get (f_collected f) (pos_name pos_def))
                              ++ [v])
               else f_pos_idx f' = f_pos_idx f + 1
                    ∧ f_collected f' = f_collected f
                    ∧ r_args (f_result f') !! pos_name pos_def = Some v).
Proof.
  split.
  - intros args r Hp. apply parse_Returned in Hp as (f & Hloop & Hfin).
    apply finish_Returned in Hfin as (-> & _ & _). split.
    + rewrite flush_positionals, (parse_loop_positionals _ _ _ _ _ Hloop).
      simpl. by rewrite apply_defaults_positionals.
    + exists f. split; [exact Hloop|]. intros k vs Hget.
      apply flush_lookup; [|exact Hget].
      apply (parse_loop_scratch _ _ _ _ _ Hloop). simpl. apply NoDup_nil_2.
  - intros arg f pos_def v Hpos Hconv Hchoice. unfold bare_token.
    rewrite Hpos, Hconv. cbn [bind].
    assert (Hc : (match pos_choices pos_def with [] => false | _ => true end
                  && negb (py_in v (pos_choices pos_def))) = false).
    { destruct Hchoice as [-> | ->]; [reflexivity | apply andb_false_r]. }
    rewrite Hc. destruct (str_in (pos_nargs pos_def) ["*"; "+"]).
    + eexists. split; [reflexivity|]. simpl.
      split; [reflexivity|]. split; [reflexivity|].
      split; [reflexivity | apply collect_get].
    + eexists. split; [reflexivity|]. simpl.
      split; [reflexivity|]. split; [reflexivity|].
      split; [reflexivity | apply lookup_insert_eq].
Qed.

(** ** The separator *)

Lemma reaches_parse_loop self args f f' fuel :
  reaches self args f f' → length args - f_i f ≤ fuel →
  parse_loop fuel self args f = parse_loop fuel self args f'.
Proof.
  intros Hr. revert fuel. induction Hr as [f|f f1 f2 Hlt Hb Hr IH]; intros fuel Hfuel.
  - reflexivity.
  - destruct fuel as [|fuel]; [lia|]. rewrite <- IH.
    + remember (parse_loop (S fuel) self args f1) as rhs eqn:Hrhs.
      simpl. pose proof Hlt as Hltb. apply Nat.ltb_lt in Hltb.
      rewrite Hltb, Hb. simpl. subst rhs.
      apply loop_body_index in Hb. apply parse_loop_fuel; lia.
    + apply loop_body_index in Hb. lia.
Qed.

Lemma loop_body_separator self args f :
  item args (f_i f) = "--" →
  loop_body self args f
  = Returned (Break (mkFrame (f_i f) (f_pos_idx f) (f_collected f)
                       (set_remaining (f_result f) (drop (f_i f + 1) args)))).
Proof. unfold loop_body. intros ->. reflexivity. Qed.

Lemma validate_from_args (l : list Arg) r r' :
  r_args r = r_args r' → validate_from l r = validate_from l r'.
Proof.
  intros Heq. induction l as [|a l IH]; simpl; [reflexivity|].
  by rewrite Heq, IH.
Qed.

Lemma flush_set_remaining collected r l :
  flush collected (set_remaining r l) = set_remaining (flush collected r) l.
Proof.
  unfold flush. revert r.
  induction collected as [|kv rest IH]; simpl; intros r; [reflexivity|].
  rewrite <- IH. reflexivity.
Qed.

(* what is left in [remaining] passes through the end of [parse] untouched *)
Lemma finish_set_remaining self f l :
  finish self (mkFrame (f_i f) (f_pos_idx f) (f_collected f)
                 (set_remaining (f_result f) l))
  = let* r := finish self f in Returned (set_remaining r l).
Proof.
  unfold finish. simpl. rewrite flush_set_remaining. simpl.
  destruct (truthy _); [reflexivity|].
  unfold _validate.
  rewrite (validate_from_args _ (set_remaining (flush (f_collected f) (f_result f)) l)
             (flush (f_collected f) (f_result f))) by reflexivity.
  destruct (validate_from _ _); reflexivity.
Qed.

(** C4. The separator: when the scan is at a token equal to "--", the loop
    stops there; [remaining] becomes the tokens after it, verbatim and in
    order, and nothing else of the state changes, so none of those tokens is
    matched against a flag or a positional.  For the whole of [parse]: if the
    scan reaches a "--" at index [i], the outcome is that of the end of
    [parse] on the state reached, with [remaining = args[i+1:]]; with "--"
    as first token the outcome is that of the empty argument list with the
    other tokens in [remaining], and parse(["--", "-x", "--y"]) has
    [remaining == ["-x", "--y"]]. *)
Theorem separator_stops_scan self :
  (∀ args f fuel, f_i f < length args → item args (f_i f) = "--" →
     parse_loop (S fuel) self args f
     = Returned (mkFrame (f_i f) (f_pos_idx f) (f_collected f)
                   (set_remaining (f_result f) (drop (f_i f + 1) args))))
  ∧ (∀ args f, reaches self args (start self) f →
       f_i f < length args → item args (f_i f) = "--" →
       parse self args
       = (let* r := finish self f in
          Returned (set_remaining r (drop (f_i f + 1) args))))
  ∧ (∀ rest, parse self ("--" :: rest)
             = let* r := parse self [] in Returned (set_remaining r rest))
  ∧ (∀ r, parse self ["--"; "-x"; "--y"] = Returned r →
          r_remaining r = ["-x"; "--y"]).
Proof.
  assert (Hloop : ∀ args f fuel, f_i f < length args → item args (f_i f) = "--" →
     parse_loop (S fuel) self args f
     = Returned (mkFrame (f_i f) (f_pos_idx f) (f_collected f)
                   (set_remaining (f_result f) (drop (f_i f + 1) args)))).
  { intros args f fuel Hlt Harg. simpl. apply Nat.ltb_lt in Hlt.
    rewrite Hlt, loop_body_separator by exact Harg. reflexivity. }
  assert (Hreach : ∀ args f, reaches self args (start self) f →
       f_i f < length args → item args (f_i f) = "--" →
       parse self args
       = (let* r := finish self f in
          Returned (set_remaining r (drop (f_i f + 1) args)))).
  { intros args f Hr Hlt Harg. unfold parse.
    rewrite (reaches_parse_loop _ _ _ _ _ Hr) by (simpl; lia).
    destruct (length args) as [|n] eqn:Hlen; [lia|].
    rewrite Hloop by (rewrite ?Hlen; done). simpl.
    apply finish_set_remaining. }
  assert (Hfirst : ∀ rest, parse self ("--" :: rest)
             = let* r := parse self [] in Returned (set_remaining r rest)).
  { intros rest.
    rewrite (Hreach ("--" :: rest) (start self));
      [reflexivity | constructor | simpl; lia | reflexivity]. }
  repeat split; try assumption.
  intros r. rewrite Hfirst. intros Hp. unbind Hp. injection Hp as <-. reflexivity.
Qed.

(** ** Long flags *)

Lemma long_token_not_separator (key val : string) :
  String.eqb ("--" +:+ key +:+ "=" +:+ val) "--" = false.
Proof. destruct key; reflexivity. Qed.

Lemma bare_long_token_not_separator (key : string) :
  key ≠ "" → String.eqb ("--" +:+ key) "--" = false.
Proof. destruct key; [done | reflexivity]. Qed.

(* the turn of the loop on --key=val *)
Lemma loop_body_long_inline self args f key val :
  item args (f_i f) = "--" +:+ key +:+ "=" +:+ val → split_eq key = None →
  loop_body self args f
  = match _find_arg self key with
    | None => Raised (ArgError (Unknown_argument_long key))
    | Some arg_def =>
        let* (i, v) := _process_arg arg_def args (f_i f) (Some val) in
        let* (result, collected) :=
          _store_value (f_result f) arg_def v (f_collected f) in
        Returned (Next (mkFrame (i + 1) (f_pos_idx f) collected result))
    end.
Proof.
  intros Harg Hkey. unfold loop_body. rewrite Harg.
  rewrite long_token_not_separator.
  change (startswith "--" ("--" +:+ key +:+ "=" +:+ val)) with true. cbv iota.
  unfold long_flag.
  change (str_from 2 ("--" +:+ key +:+ "=" +:+ val)) with (key +:+ "=" +:+ val).
  rewrite split_eq_app by exact Hkey.
  destruct (_find_arg self key) as [arg_def|]; [|reflexivity].
  destruct (_process_arg _ _ _ _) as [[i v]|e]; [|reflexivity]. simpl.
  destruct (_store_value _ _ _ _) as [[r c]|e]; reflexivity.
Qed.

(* the turn of the loop on --key *)
Lemma loop_body_long_bare self args f key :
  item args (f_i f) = "--" +:+ key → key ≠ "" → split_eq key = None →
  loop_body self args f
  = match _find_arg self key with
    | None => Raised (ArgError (Unknown_argument_long key))
    | Some arg_def =>
        let* (i, v) := _process_arg arg_def args (f_i f) None in
        let* (result, collected) :=
          _store_value (f_result f) arg_def v (f_collected f) in
        Returned (Next (mkFrame (i + 1) (f_pos_idx f) collected result))
    end.
Proof.
  intros Harg Hne Hkey. unfold loop_body. rewrite Harg.
  rewrite bare_long_token_not_separator by exact Hne.
  change (startswith "--" ("--" +:+ key)) with true. cbv iota.
  unfold long_flag.
  change (str_from 2 ("--" +:+ key)) with key. rewrite Hkey.
  destruct (_find_arg self key) as [arg_def|]; [|reflexivity].
  destruct (_process_arg _ _ _ _) as [[i v]|e]; [|reflexivity]. simpl.
  destruct (_store_value _ _ _ _) as [[r c]|e]; reflexivity.
Qed.

(* an exception in the first turn of the loop leaves [parse] *)
Lemma parse_raises_first self tok rest e :
  loop_body self (tok :: rest) (start self) = Raised e →
  parse self (tok :: rest) = Raised e.
Proof. unfold parse. simpl. intros ->. reflexivity. Qed.

(** ** Type coercion *)

Lemma convert_Raised v typ e :
  _convert v typ = Raised e → e = ValueError typ v ∧ malformed v typ.
Proof.
  destruct typ; simpl; try discriminate.
  - destruct (int_of_str v) eqn:Hi; [discriminate|]. intros [= <-]. auto.
  - destruct (float_of_str v) eqn:Hf; [discriminate|]. intros [= <-]. auto.
Qed.

Lemma convert_malformed v typ :
  malformed v typ → _convert v typ = Raised (ValueError typ v).
Proof. destruct typ; simpl; try done; intros ->; reflexivity. Qed.

Local Arguments Ascii.eqb : simpl never.

Lemma bare_dispatch (tok : string) :
  startswith "-" tok = false →
  String.eqb tok "--" = false ∧ startswith "--" tok = false.
Proof.
  destruct tok as [|c tok]; simpl; [done|].
  destruct (Ascii.eqb "-" c) eqn:Hc; [discriminate|].
  intros _. split; [|reflexivity].
  rewrite Ascii.eqb_sym in Hc. by rewrite Hc.
Qed.

(* the turn of the loop on a token that does not start with "-" *)
Lemma loop_body_bare self args f :
  startswith "-" (item args (f_i f)) = false →
  loop_body self args f
  = let* f' := bare_token self (item args (f_i f)) f in Returned (Next (step_i f')).
Proof.
  intros Hbare. unfold loop_body.
  destruct (bare_dispatch _ Hbare) as [-> ->]. by rewrite Hbare.
Qed.

(** C3. For a declared type of integer or float, [_convert] applies the
    numeric parse of the language ([int], [float]) to the raw token and
    fails exactly when the token is malformed for that type; the exception
    is the parse's own ValueError, the conversion error kind, and it
    leaves [parse] for its caller, from a flag's value as from a
    positional.  For type string the token comes back unchanged. *)
Theorem convert_fails_exactly_on_malformed :
  (∀ tok typ, (∃ e, _convert tok typ = Raised e) ↔ malformed tok typ)
  ∧ (∀ tok typ e, _convert tok typ = Raised e →
       e = ValueError typ tok ∧ kind_of e = ConversionError)
  ∧ (∀ tok, _convert tok TInt = match int_of_str tok with
                                | Some n => Returned (VInt n)
                                | None => Raised (ValueError TInt tok)
                                end)
  ∧ (∀ tok, _convert tok TFloat = match float_of_str tok with
                                  | Some x => Returned (VFloat x)
                                  | None => Raised (ValueError TFloat tok)
                                  end)
  ∧ (∀ tok, _convert tok TStr = Returned (VStr tok))
  ∧ (∀ self key val a rest,
       split_eq key = None → _find_arg self key = Some a →
       no_value_action a = false → malformed val (arg_type a) →
       parse self (("--" +:+ key +:+ "=" +:+ val) :: rest)
       = Raised (ValueError (arg_type a) val))
  ∧ (∀ self tok rest p,
       positionals self !! 0 = Some p → startswith "-" tok = false →
       malformed tok (pos_type p) →
       parse self (tok :: rest) = Raised (ValueError (pos_type p) tok)).
Proof.
  split; [|split; [|split; [|split; [|split; [|split]]]]]; try reflexivity.
  - intros tok typ. split.
    + intros [e He]. by apply convert_Raised in He as [_ ?].
    + intros Hm. eexists. by apply convert_malformed.
  - intros tok typ e He. by apply convert_Raised in He as [-> _].
  - intros self key val a rest Hkey Hfind Hact Hm.
    apply parse_raises_first.
    rewrite (loop_body_long_inline _ _ _ key val) by done.
    rewrite Hfind. unfold _process_arg. rewrite Hact.
    by rewrite convert_malformed.
  - intros self tok rest p Hpos Hbare Hm.
    apply parse_raises_first. rewrite loop_body_bare by exact Hbare.
    change (item (tok :: rest) (f_i (start self))) with tok.
    unfold bare_token. change (f_pos_idx (start self)) with 0. rewrite Hpos.
    by rewrite convert_malformed.
Qed.

Lemma eq_nocase_lower (s t : string) :
  eq_nocase s t = String.eqb (lower s) (lower t).
Proof.
  revert t. induction s as [|a s IH]; intros [|b t]; simpl; try reflexivity.
  by rewrite IH.
Qed.

(** C8. Conversion to the boolean type never raises: it returns [True]
    exactly when the token equals one of "true", "1", "yes", "on" up to the
    case of its letters, and [False] for every other string. *)
Theorem boolean_conversion_is_truthy_word (tok : string) :
  ∃ b, _convert tok TBool = Returned (VBool b)
       ∧ (b = true ↔ ∃ w, w ∈ ["true"; "1"; "yes"; "on"] ∧ eq_nocase tok w = true)
       ∧ (b = false ↔ ∀ w, w ∈ ["true"; "1"; "yes"; "on"] → eq_nocase tok w = false).
Proof.
  exists (existsb (eq_nocase tok) ["true"; "1"; "yes"; "on"]).
  split; [|split].
  - simpl. unfold str_in. simpl. by rewrite !eq_nocase_lower.
  - rewrite existsb_exists. split.
    + intros (w & Hw & Heq). exists w. split; [by apply list_elem_of_In | exact Heq].
    + intros (w & Hw & Heq). exists w. split; [by apply list_elem_of_In | exact Heq].
  - rewrite <- not_true_iff_false, existsb_exists. split.
    + intros Hno w Hw. apply not_true_iff_false. intros Heq.
      apply Hno. exists w. split; [by apply list_elem_of_In | exact Heq].
    + intros Hall (w & Hw & Heq). apply list_elem_of_In in Hw.
      rewrite (Hall w Hw) in Heq. discriminate.
Qed.

(** ** Value resolution *)

(* without nargs "?", a value-taking flag consumes the next token *)
Lemma process_arg_consumes arg_def args i :
  no_value_action arg_def = false → arg_nargs arg_def ≠ "?" →
  i + 1 < length args →
  _process_arg arg_def args i None
  = let* c := _convert (item args (i + 1)) (arg_type arg_def) in Returned (i + 1, c).
Proof.
  intros Hact Hn Hlt. unfold _process_arg. rewrite Hact.
  apply String.eqb_neq in Hn. rewrite Hn, andb_false_l.
  apply Nat.leb_gt in Hlt. by rewrite Hlt.
Qed.

(** C6. Value resolution of a value-taking flag when no inline value was
    given: if nargs is "?" and there is no next token or the next token
    starts with "-", the configured default is the value and the index
    stays (no token is consumed); otherwise the next token is consumed (the
    index moves onto it) and converted, and when there is no next token the
    resolution fails with the missing-value error. *)
Theorem value_resolution_without_inline arg_def args i :
  no_value_action arg_def = false →
  (arg_nargs arg_def = "?" →
   length args ≤ i + 1 ∨ startswith "-" (item args (i + 1)) = true →
   _process_arg arg_def args i None = Returned (i, arg_default arg_def))
  ∧ (¬ (arg_nargs arg_def = "?"
        ∧ (length args ≤ i + 1 ∨ startswith "-" (item args (i + 1)) = true)) →
     (i + 1 < length args →
      _process_arg arg_def args i None
      = let* c := _convert (item args (i + 1)) (arg_type arg_def) in
        Returned (i + 1, c))
     ∧ (length args ≤ i + 1 →
        _process_arg arg_def args i None
        = Raised (ArgError (Argument_requires_value (arg_name arg_def)))
        ∧ kind_of (ArgError (Argument_requires_value (arg_name arg_def)))
          = MissingValueError))
  ∧ (∀ self f key, f_i f = i →
       item args i = "--" +:+ key → key ≠ "" → split_eq key = None →
       _find_arg self key = Some arg_def →
       loop_body self args f
       = let* (i', v) := _process_arg arg_def args i None in
         let* (result, collected) :=
           _store_value (f_result f) arg_def v (f_collected f) in
         Returned (Next (mkFrame (i' + 1) (f_pos_idx f) collected result))).
Proof.
  intros Hact.
  assert (Hloop : ∀ self f key, f_i f = i →
       item args i = "--" +:+ key → key ≠ "" → split_eq key = None →
       _find_arg self key = Some arg_def →
       loop_body self args f
       = let* (i', v) := _process_arg arg_def args i None in
         let* (result, collected) :=
           _store_value (f_result f) arg_def v (f_collected f) in
         Returned (Next (mkFrame (i' + 1) (f_pos_idx f) collected result))).
  { intros self f key <- Harg Hne Hkey Hfind.
    rewrite (loop_body_long_bare _ _ _ key) by done. by rewrite Hfind. }
  split; [|split; [|exact Hloop]]; clear Hloop;
    unfold _process_arg; rewrite Hact.
  - intros Hn Hnext. rewrite Hn, String.eqb_refl, andb_true_l.
    destruct Hnext as [Hlen|Hdash].
    + apply Nat.leb_le in Hlen. by rewrite Hlen.
    + rewrite Hdash. by rewrite orb_true_r.
  - intros Hno.
    assert (Hcond : String.eqb (arg_nargs arg_def) "?"
                    && ((length args <=? i + 1) || startswith "-" (item args (i + 1)))
                    = false).
    { apply not_true_iff_false. intros Hc. apply Hno.
      apply andb_true_iff in Hc as [Hn Hc]. apply String.eqb_eq in Hn.
      apply orb_true_iff in Hc as [Hc|Hc]; [apply Nat.leb_le in Hc|]; auto. }
    rewrite Hcond. split.
    + intros Hlt. apply Nat.leb_gt in Hlt. by rewrite Hlt.
    + intros Hlen. apply Nat.leb_le in Hlen. by rewrite Hlen.
Qed.

(** ** Schema construction *)

Lemma find_snoc {A} (P : A → bool) (l : list A) (x : A) :
  List.find P (l ++ [x])
  = match List.find P l with
    | Some y => Some y
    | None => if P x then Some x else None
    end.
Proof.
  induction l as [|y l IH]; simpl; [reflexivity|].
  destruct (P y); [reflexivity | exact IH].
Qed.

(** C2 (as the code has it). [add_argument] and [add_positional] never
    fail and check nothing: they append the new entry at the end of its
    list, also when its name or its short collides with an existing entry,
    and change nothing else.  An entry that collides with an earlier one is
    shadowed: lookup by name, dest or short still finds the earlier one. *)
Theorem add_entry_always_appends self :
  (∀ a, add_argument self a
        = Returned {| prog := prog self; description := description self;
                      epilog := epilog self;
                      arguments := arguments self ++ [a];
                      positionals := positionals self |})
  ∧ (∀ p, add_positional self p
          = Returned {| prog := prog self; description := description self;
                        epilog := epilog self;
                        arguments := arguments self;
                        positionals := positionals self ++ [p] |})
  ∧ (∀ a self' name b, add_argument self a = Returned self' →
       _find_arg self name = Some b → _find_arg self' name = Some b)
  ∧ (∀ a self' short b, add_argument self a = Returned self' →
       _find_arg_short self short = Some b → _find_arg_short self' short = Some b).
Proof.
  split; [reflexivity|]. split; [reflexivity|]. split.
  - intros a self' name b [= <-] Hfind. unfold _find_arg in *. simpl.
    by rewrite find_snoc, Hfind.
  - intros a self' short b [= <-] Hfind. unfold _find_arg_short in *. simpl.
    by rewrite find_snoc, Hfind.
Qed.

(** ** Short clusters *)

Lemma cluster_prefix self args arg pre flags rest j f :
  Forall2 (no_value_short self) pre flags →
  cluster self args arg (pre ++ rest) j f
  = let* f1 := store_flags flags f in
    cluster self args arg rest (j + length pre) f1.
Proof.
  intros Hpre. revert j f.
  induction Hpre as [|c a pre flags [Hfind Hact] _ IH]; intros j f; simpl.
  - by rewrite Nat.add_0_r.
  - rewrite Hfind, Hact.
    destruct (_store_value _ _ _ _) as [[r cl]|e]; simpl; [|reflexivity].
    rewrite IH. by replace (S j + length pre) with (j + S (length pre)) by lia.
Qed.

Lemma length_string_of_list_ascii (l : list ascii) :
  String.length (string_of_list_ascii l) = length l.
Proof. induction l as [|c l IH]; simpl; [reflexivity | by rewrite IH]. Qed.

(* the turn of the loop on a token "-" followed by characters, the first of
   which is not "-" *)
Lemma loop_body_cluster self args f c chars :
  item args (f_i f) = String "-" (string_of_list_ascii (c :: chars)) → c ≠ "-"%char →
  loop_body self args f
  = let* f' := cluster self args (item args (f_i f)) (c :: chars) 0 f in
    Returned (Next (step_i f')).
Proof.
  intros Harg Hc. unfold loop_body. rewrite Harg.
  assert (Hcb : Ascii.eqb c "-" = false) by by apply Ascii.eqb_neq.
  assert (Hcb' : Ascii.eqb "-" c = false) by by rewrite Ascii.eqb_sym.
  simpl. rewrite Hcb, Hcb'. simpl.
  by rewrite list_ascii_of_string_of_list_ascii.
Qed.

Lemma parse_raises_at self args f e :
  reaches self args (start self) f → f_i f < length args →
  loop_body self args f = Raised e → parse self args = Raised e.
Proof.
  intros Hr Hlt Hb. unfold parse.
  rewrite (reaches_parse_loop _ _ _ _ _ Hr) by (simpl; lia).
  destruct (length args) as [|n] eqn:Hlen; [lia|]. simpl.
  rewrite Hlen. apply Nat.ltb_lt in Hlt. by rewrite Hlt, Hb.
Qed.

Lemma store_flags_frame (flags : list Arg) f f1 :
  store_flags flags f = Returned f1 → f_i f1 = f_i f ∧ f_pos_idx f1 = f_pos_idx f.
Proof.
  revert f. induction flags as [|a flags IH]; simpl; intros f Hs.
  - by injection Hs as <-.
  - unbind Hs. destruct x as [r cl]. by apply IH in Hs.
Qed.

Lemma cluster_schema_built :
  (let* p := init "prog" "" "" "" in
   let* p := add_argument p (mkArg "a" "a" TStr VNone false "" [] "" "store_true" "" "") in
   let* p := add_argument p (mkArg "b" "b" TStr VNone false "" [] "" "store_true" "" "") in
   add_argument p (Arg_default "c" "c"))
  = Returned cluster_schema.
Proof. reflexivity. Qed.

(** C5. Short clusters.  The characters after the dash are visited from
    left to right.  A character whose flag has action store_true,
    store_false or count is stored at once and consumes nothing, so a
    cluster made of such flags only is stored flag by flag and the scan
    moves to the next token.  A character whose flag takes a value is
    accepted only as the last character: its value is then resolved from
    the tokens that follow and stored; when it stands before the end of the
    cluster (the flags before it having been stored), [parse] fails with
    the missing-value error "Option -x requires a value".  With store_true
    flags a and b and a value flag c, parse(["-abc", "val"]) sets a and b to
    [True] and c to "val". *)
Theorem short_cluster_semantics self args f c chars :
  reaches self args (start self) f → f_i f < length args →
  item args (f_i f) = String "-" (string_of_list_ascii (c :: chars)) →
  c ≠ "-"%char →
  (∀ flags, Forall2 (no_value_short self) (c :: chars) flags →
     loop_body self args f
     = let* f1 := store_flags flags f in Returned (Next (step_i f1)))
  ∧ (∀ pre flags x a, c :: chars = pre ++ [x] →
       Forall2 (no_value_short self) pre flags →
       _find_arg_short self (String x "") = Some a → no_value_action a = false →
       loop_body self args f
       = let* f1 := store_flags flags f in
         let* (i, v) := _process_arg a args (f_i f1) None in
         let* (result, collected) :=
           _store_value (f_result f1) a v (f_collected f1) in
         Returned (Next (mkFrame (i + 1) (f_pos_idx f1) collected result)))
  ∧ (∀ pre flags x a f1 v, c :: chars = pre ++ [x] →
       Forall2 (no_value_short self) pre flags →
       store_flags flags f = Returned f1 →
       _find_arg_short self (String x "") = Some a → no_value_action a = false →
       arg_nargs a ≠ "?" → f_i f + 1 < length args →
       _convert (item args (f_i f + 1)) (arg_type a) = Returned v →
       loop_body self args f
       = let* (result, collected) :=
           _store_value (f_result f1) a v (f_collected f1) in
         Returned (Next (mkFrame (f_i f + 2) (f_pos_idx f) collected result)))
  ∧ (∀ pre flags x post a f1, c :: chars = pre ++ x :: post → post ≠ [] →
       Forall2 (no_value_short self) pre flags →
       store_flags flags f = Returned f1 →
       _find_arg_short self (String x "") = Some a → no_value_action a = false →
       parse self args = Raised (ArgError (Option_requires_value (String x "")))
       ∧ kind_of (ArgError (Option_requires_value (String x "")))
         = MissingValueError)
  ∧ (∃ r, parse cluster_schema ["-abc"; "val"] = Returned r
          ∧ r_args r !! "a" = Some (VBool true)
          ∧ r_args r !! "b" = Some (VBool true)
          ∧ r_args r !! "c" = Some (VStr "val")).
Proof.
  intros Hr Hlt Harg Hc.
  pose proof (loop_body_cluster self args f c chars Harg Hc) as Hbody.
  assert (Hlen : String.length (item args (f_i f)) - 2 = length chars).
  { rewrite Harg. simpl. rewrite length_string_of_list_ascii. lia. }
  assert (Hlast : ∀ pre flags x a, c :: chars = pre ++ [x] →
       Forall2 (no_value_short self) pre flags →
       _find_arg_short self (String x "") = Some a → no_value_action a = false →
       loop_body self args f
       = let* f1 := store_flags flags f in
         let* (i, v) := _process_arg a args (f_i f1) None in
         let* (result, collected) :=
           _store_value (f_result f1) a v (f_collected f1) in
         Returned (Next (mkFrame (i + 1) (f_pos_idx f1) collected result))).
  { intros pre flags x a Hchars Hpre Hfind Hact. rewrite Hbody, Hchars.
    rewrite (cluster_prefix _ _ _ _ flags) by exact Hpre.
    destruct (store_flags flags f) as [f1|e]; [|reflexivity].
    cbn [bind cluster]. rewrite Hfind, Hact, Hlen.
    assert (Hj : (0 + length pre =? length chars) = true).
    { apply Nat.eqb_eq. apply (f_equal length) in Hchars.
      rewrite length_app in Hchars. simpl in Hchars. lia. }
    rewrite Hj.
    destruct (_process_arg _ _ _ _) as [[i v]|e]; [|reflexivity]. cbn [bind].
    destruct (_store_value _ _ _ _) as [[r cl]|e]; reflexivity. }
  split; [|split; [exact Hlast|split; [|split]]].
  - intros flags Hall. rewrite Hbody.
    rewrite <- (app_nil_r (c :: chars)), (cluster_prefix _ _ _ _ flags) by exact Hall.
    destruct (store_flags flags f); reflexivity.
  - intros pre flags x a f1 v Hchars Hpre Hstore Hfind Hact Hn Hnext Hconv.
    rewrite (Hlast pre flags x a) by assumption. rewrite Hstore. cbn [bind].
    destruct (store_flags_frame _ _ _ Hstore) as [-> ->].
    rewrite process_arg_consumes, Hconv by assumption. cbn [bind].
    by replace (f_i f + 1 + 1) with (f_i f + 2) by lia.
  - intros pre flags x post a f1 Hchars Hpost Hpre Hstore Hfind Hact.
    split; [|reflexivity].
    apply (parse_raises_at _ _ f); [exact Hr | exact Hlt |].
    rewrite Hbody, Hchars.
    rewrite (cluster_prefix _ _ _ _ flags) by exact Hpre.
    rewrite Hstore. cbn [bind cluster]. rewrite Hfind, Hact, Hlen.
    assert (Hj : (0 + length pre =? length chars) = false).
    { apply Nat.eqb_neq. apply (f_equal length) in Hchars.
      rewrite length_app in Hchars. simpl in Hchars.
      destruct post; [done | simpl in Hchars; lia]. }
    by rewrite Hj.
  - eexists. split; [vm_compute; reflexivity|].
    split; [|split]; vm_compute; reflexivity.
Qed.

(** ** Validation *)

Lemma validate_from_Raised (l : list Arg) r e :
  validate_from l r = Raised e →
  ∃ a, a ∈ l ∧ arg_required a = true ∧ is_none (r_args r !! dest_of a) = true
       ∧ e = ArgError (Required_argument (arg_name a)).
Proof.
  induction l as [|a l IH]; simpl; [discriminate|].
  destruct (arg_required a && is_none _) eqn:Hc.
  - intros [= <-]. apply andb_true_iff in Hc as [Hreq Hnone].
    exists a. split; [apply elem_of_cons; by left | auto].
  - intros He. destruct (IH He) as (b & Hb & Hrest).
    exists b. split; [apply elem_of_cons; by right | exact Hrest].
Qed.

Lemma validate_from_Returned (l : list Arg) r :
  validate_from l r = Returned tt →
  ∀ a, a ∈ l → arg_required a = true → is_none (r_args r !! dest_of a) = false.
Proof.
  induction l as [|b l IH]; simpl; intros Hv a Ha Hreq.
  - by apply elem_of_nil in Ha.
  - destruct (arg_required b && is_none _) eqn:Hc; [discriminate|].
    apply elem_of_cons in Ha as [-> | Ha]; [|by apply IH].
    rewrite Hreq in Hc. exact Hc.
Qed.

Lemma validate_iff self r :
  (∃ e, _validate self r = Raised e) ↔ required_missing self r.
Proof.
  unfold _validate, required_missing. split.
  - intros [e He]. apply validate_from_Raised in He as (a & ? & ? & ? & _). eauto.
  - intros (a & Ha & Hreq & Hnone).
    destruct (validate_from (arguments self) r) as [[]|e] eqn:Hv; [|eauto].
    rewrite (validate_from_Returned _ _ Hv a Ha Hreq) in Hnone. discriminate.
Qed.

Lemma validate_kind self r e :
  _validate self r = Raised e → kind_of e = RequiredArgumentError.
Proof. intros He. by apply validate_from_Raised in He as (a & _ & _ & _ & ->). Qed.

(* the end of [parse] when help was not asked for *)
Lemma finish_no_help self f :
  truthy (default VNone (r_args (flush (f_collected f) (f_result f)) !! "help")) = false →
  finish self f
  = let* _ := _validate self (flush (f_collected f) (f_result f)) in
    Returned (flush (f_collected f) (f_result f)).
Proof. unfold finish. by intros ->. Qed.

(** C7 (as the code has it). After the scan and the flush, if the "help"
    destination holds a true value, [parse] prints the help and exits with
    code 0 before any validation.  Otherwise [parse] fails with the
    required-argument error if and only if some flag marked required has a
    destination whose value is None or absent, and returns the result when
    there is none.  On an empty argument list, with a help default that is
    not true, [parse] returns the defaults when no flag is required and
    raises the required-argument error when a required flag's destination
    is None in the defaults.  Positionals play no part in the check. *)
Theorem required_check_unless_help self :
  (∀ r, (∃ e, _validate self r = Raised e) ↔ required_missing self r)
  ∧ (∀ r e, _validate self r = Raised e → kind_of e = RequiredArgumentError)
  ∧ (∀ args f, parse_loop (length args) self args (start self) = Returned f →
       let result := flush (f_collected f) (f_result f) in
       (truthy (default VNone (r_args result !! "help")) = true →
        parse self args = Raised (SystemExit 0))
       ∧ (truthy (default VNone (r_args result !! "help")) = false →
          ((∃ e, parse self args = Raised e ∧ kind_of e = RequiredArgumentError)
           ↔ required_missing self result)
          ∧ (¬ required_missing self result → parse self args = Returned result)))
  ∧ (truthy (default VNone (r_args (_apply_defaults self empty_result) !! "help"))
     = false →
     (Forall (λ a, arg_required a = false) (arguments self) →
      parse self [] = Returned (_apply_defaults self empty_result))
     ∧ (required_missing self (_apply_defaults self empty_result) →
        ∃ e, parse self [] = Raised e ∧ kind_of e = RequiredArgumentError))
  ∧ (∀ ps f,
       finish {| prog := prog self; description := description self;
                 epilog := epilog self; arguments := arguments self;
                 positionals := ps |} f
       = finish self f).
Proof.
  assert (Hscan : ∀ args f,
    parse_loop (length args) self args (start self) = Returned f →
    let result := flush (f_collected f) (f_result f) in
    (truthy (default VNone (r_args result !! "help")) = true →
     parse self args = Raised (SystemExit 0))
    ∧ (truthy (default VNone (r_args result !! "help")) = false →
       ((∃ e, parse self args = Raised e ∧ kind_of e = RequiredArgumentError)
        ↔ required_missing self result)
       ∧ (¬ required_missing self result → parse self args = Returned result))).
  { intros args f Hloop result. unfold parse. rewrite Hloop. cbn [bind]. split.
    - unfold finish. fold result. by intros ->.
    - intros Hhelp. rewrite finish_no_help by exact Hhelp. fold result.
      rewrite <- validate_iff.
      destruct (_validate self result) as [[]|e] eqn:Hv; cbn [bind].
      + split; [|reflexivity]. split.
        * intros (e & He & _). discriminate.
        * intros (e & He). discriminate.
      + split.
        * split; [eauto|]. intros _. exists e. split; [reflexivity|].
          by apply validate_kind in Hv.
        * intros Hno. exfalso. eauto. }
  split; [apply validate_iff|]. split; [apply validate_kind|].
  split; [exact Hscan|]. split; [|reflexivity].
  intros Hhelp.
  destruct (Hscan [] (start self) eq_refl) as [_ Hrest].
  destruct (Hrest Hhelp) as [Hiff Hret]. split.
  - intros Hnone. apply Hret. intros (a & Ha & Hreq & _).
    rewrite Forall_forall in Hnone. rewrite (Hnone a Ha) in Hreq. discriminate.
  - intros Hmiss. by apply Hiff.
Qed.

(** ** Inline values on flags that take none *)

Lemma no_value_action_cases a :
  no_value_action a = true →
  arg_action a = "store_true" ∨ arg_action a = "store_false"
  ∨ arg_action a = "count".
Proof.
  unfold no_value_action. rewrite str_in_true.
  rewrite !elem_of_cons, elem_of_nil. tauto.
Qed.

(** C10 (as the code has it). On a token --name=value whose flag, found by
    the text before the first "=", has action store_true, store_false or
    count, the inline value is never looked at: value resolution returns no
    value, and the turn of the loop has the outcome of the long-flag branch
    on the bare token --name, so the outcome is the same as for a bare
    --name in that place.  store_true stores [True] and store_false stores
    [False], without failing; count stores the destination's value plus one
    (counting an absent destination as 0) without failing whenever that
    value is a number. *)
Theorem inline_value_ignored_by_no_value_flag self args f key val a :
  item args (f_i f) = "--" +:+ key +:+ "=" +:+ val → split_eq key = None →
  _find_arg self key = Some a → no_value_action a = true →
  (arg_action a = "store_true" ∨ arg_action a = "store_false"
   ∨ arg_action a = "count")
  ∧ (∀ v, _process_arg a args (f_i f) v = Returned (f_i f, VNone))
  ∧ loop_body self args f
    = (let* f' := long_flag self args ("--" +:+ key) f in Returned (Next (step_i f')))
  ∧ (∀ args', key ≠ "" → item args' (f_i f) = "--" +:+ key →
       loop_body self args f = loop_body self args' f)
  ∧ (arg_action a = "store_true" →
     loop_body self args f
     = Returned (Next (mkFrame (f_i f + 1) (f_pos_idx f) (f_collected f)
                         (set_arg (f_result f) (dest_of a) (VBool true)))))
  ∧ (arg_action a = "store_false" →
     loop_body self args f
     = Returned (Next (mkFrame (f_i f + 1) (f_pos_idx f) (f_collected f)
                         (set_arg (f_result f) (dest_of a) (VBool false)))))
  ∧ (arg_action a = "count" →
     ∀ n, py_add1 (default (VInt 0) (r_args (f_result f) !! dest_of a)) = Some n →
     loop_body self args f
     = Returned (Next (mkFrame (f_i f + 1) (f_pos_idx f) (f_collected f)
                         (set_arg (f_result f) (dest_of a) n)))).
Proof.
  intros Harg Hkey Hfind Hact.
  assert (Hproc : ∀ args0 v, _process_arg a args0 (f_i f) v = Returned (f_i f, VNone)).
  { intros args0 v. unfold _process_arg. by rewrite Hact. }
  assert (Hbody : ∀ args0, loop_body self args f
    = let* (result, collected) :=
        _store_value (f_result f) a VNone (f_collected f) in
      Returned (Next (mkFrame (f_i f + 1) (f_pos_idx f) collected result))).
  { intros _. rewrite (loop_body_long_inline _ _ _ key val) by done.
    rewrite Hfind, Hproc. reflexivity. }
  split; [by apply no_value_action_cases|].
  split; [apply Hproc|]. split; [|split; [|split; [|split]]].
  - rewrite (Hbody args). unfold long_flag.
    change (str_from 2 ("--" +:+ key)) with key. rewrite Hkey, Hfind, Hproc.
    cbn [bind]. destruct (_store_value _ _ _ _) as [[r c]|e]; reflexivity.
  - intros args' Hne Harg'. rewrite (Hbody args).
    rewrite (loop_body_long_bare _ args' _ key) by done.
    by rewrite Hfind, Hproc.
  - intros Ha. rewrite (Hbody args). unfold _store_value. by rewrite Ha.
  - intros Ha. rewrite (Hbody args). unfold _store_value. by rewrite Ha.
  - intros Ha n Hn. rewrite (Hbody args). unfold _store_value.
    rewrite Ha, Hn. reflexivity.
Qed.

(** * Further properties of the parser *)

(** ** Running the scan *)

Lemma reaches_trans self args f1 f2 f3 :
  reaches self args f1 f2 → reaches self args f2 f3 → reaches self args f1 f3.
Proof.
  intros H12 H23. induction H12 as [f|f fa fb Hlt Hb _ IH]; [exact H23|].
  eapply reaches_next; [exact Hlt | exact Hb | by apply IH].
Qed.

Lemma reaches_step self args f f' :
  f_i f < length args → loop_body self args f = Returned (Next f') →
  reaches self args f f'.
Proof. intros Hlt Hb. eapply reaches_next; [exact Hlt | exact Hb | apply reaches_here]. Qed.

Lemma parse_loop_done fuel self args f :
  length args ≤ f_i f → parse_loop fuel self args f = Returned f.
Proof.
  intros Hge. destruct fuel; simpl; [reflexivity|].
  apply Nat.ltb_ge in Hge. by rewrite Hge.
Qed.

(* when the scan has passed the last token, [parse] goes on with the flush *)
Lemma parse_at_end self args f :
  reaches self args (start self) f → length args ≤ f_i f →
  parse self args = finish self f.
Proof.
  intros Hr Hge. unfold parse.
  rewrite (reaches_parse_loop _ _ _ _ _ Hr) by (simpl; lia).
  by rewrite parse_loop_done.
Qed.

(* the end of [parse] looks at the result and the scratch dictionary only *)
Lemma finish_state self f f' :
  f_collected f = f_collected f' → f_result f = f_result f' →
  finish self f = finish self f'.
Proof. unfold finish. by intros -> ->. Qed.

Lemma drop_cons_inv (args : list string) i tok rest :
  drop i args = tok :: rest →
  i < length args ∧ item args i = tok ∧ drop (S i) args = rest.
Proof.
  intros Hd.
  assert (Hl : args !! i = Some tok).
  { rewrite <- (Nat.add_0_r i), <- lookup_drop, Hd. reflexivity. }
  split; [by apply lookup_lt_Some in Hl|]. split.
  - unfold item. by rewrite nth_lookup, Hl.
  - rewrite (drop_S _ _ _ Hl) in Hd. by injection Hd.
Qed.

Lemma apply_defaults_remaining self r :
  r_remaining (_apply_defaults self r) = r_remaining r.
Proof.
  refine (apply_defaults_rel (λ s1 s2, r_remaining s2.1 = r_remaining s1.1)
            _ _ _ self r []); simpl; auto.
  intros ??? -> ->. reflexivity.
Qed.

(** ** The result view *)

(** X1. [get] on the result of a [parse] that returned never falls back
    for the destination of a declared flag: the key is always there, so the
    stored value comes back whatever fallback the caller gives (None for a
    flag without default that was not on the command line).  For a key that
    is absent the fallback comes back. *)
Theorem get_ignores_fallback_for_declared self args r a :
  parse self args = Returned r → a ∈ arguments self →
  (∃ v, r_args r !! dest_of a = Some v ∧ ∀ d, get r (dest_of a) d = v)
  ∧ (∀ name d, r_args r !! name = None → get r name d = d).
Proof.
  intros Hp Ha. split.
  - apply parse_Returned in Hp as (f & Hloop & Hfin).
    apply finish_Returned in Hfin as (-> & _ & _).
    assert (Hin : dest_of a ∈ dom (r_args (flush (f_collected f) (f_result f)))).
    { apply flush_keys, (parse_loop_keys _ _ _ _ _ Hloop). simpl.
      apply elem_of_dom. by apply defaults_declared. }
    apply elem_of_dom in Hin as [v Hv]. exists v. split; [exact Hv|].
    intros d. unfold get. by rewrite Hv.
  - intros name d Hnone. unfold get. by rewrite Hnone.
Qed.


(** ** The built-in help flag *)

Lemma built_arguments p : built p → ∃ rest, arguments p = help_flag :: rest.
Proof.
  induction 1 as [argv0 pr d e p Hinit|p a p' _ [rest IH] Hadd|p x p' _ [rest IH] Hadd].
  - injection Hinit as <-. by exists [].
  - injection Hadd as <-. exists (rest ++ [a]). simpl. by rewrite IH.
  - injection Hadd as <-. by exists rest.
Qed.

(* one token that sets the help destination: [parse] exits *)
Lemma parse_single_help self tok :
  loop_body self [tok] (start self)
  = Returned (Next (mkFrame 1 0 []
                      (set_arg (f_result (start self)) "help" (VBool true)))) →
  parse self [tok] = Raised (SystemExit 0).
Proof.
  intros Hb. unfold parse. simpl. rewrite Hb. simpl.
  unfold finish. simpl. by rewrite lookup_insert_eq.
Qed.

(** X3. For every schema built through the interface, the built-in help
    flag is declared first, so "--help", "-h" and "--help=anything" as only
    token make [parse] exit with code 0, whatever other flags (required
    ones too) and positionals are declared.  The exit is decided after the
    scan: an unknown flag after "--help" is reported instead. *)
Theorem help_exits_for_built_schemas p :
  built p →
  parse p ["--help"] = Raised (SystemExit 0)
  ∧ parse p ["-h"] = Raised (SystemExit 0)
  ∧ (∀ v, parse p ["--help=" +:+ v] = Raised (SystemExit 0))
  ∧ (∀ key, key ≠ "" → split_eq key = None → _find_arg p key = None →
       parse p ["--help"; "--" +:+ key]
       = Raised (ArgError (Unknown_argument_long key))).
Proof.
  intros Hb. destruct (built_arguments p Hb) as [rest Hargs].
  assert (Hfind : _find_arg p "help" = Some help_flag).
  { unfold _find_arg. rewrite Hargs. reflexivity. }
  assert (Hshort : _find_arg_short p "h" = Some help_flag).
  { unfold _find_arg_short. rewrite Hargs. reflexivity. }
  assert (Hlong : ∀ args, item args 0 = "--help" →
            loop_body p args (start p)
            = Returned (Next (mkFrame 1 0 []
                 (set_arg (f_result (start p)) "help" (VBool true))))).
  { intros args Harg.
    rewrite (loop_body_long_bare _ _ _ "help") by done. by rewrite Hfind. }
  split; [|split; [|split]].
  - apply parse_single_help. by apply Hlong.
  - apply parse_single_help.
    rewrite (loop_body_cluster _ _ _ "h"%char []) by done.
    change (item ["-h"] (f_i (start p))) with "-h". cbn [cluster].
    by rewrite Hshort.
  - intros v. apply parse_single_help.
    rewrite (loop_body_long_inline _ _ _ "help" v) by done. by rewrite Hfind.
  - intros key Hne Hkey Hnone.
    apply (parse_raises_at _ _ (mkFrame 1 0 []
             (set_arg (f_result (start p)) "help" (VBool true)))).
    + apply reaches_step; [simpl; lia | by apply Hlong].
    + simpl; lia.
    + rewrite (loop_body_long_bare _ _ _ key) by done. by rewrite Hnone.
Qed.

(** X4. A long-flag token with nothing before the "=" has the empty key,
    and the lookup by name or dest with the empty key finds the first flag
    whose dest was left unset: in a schema built through the interface that
    is the help flag, so "--=anything" makes [parse] exit with code 0. *)
Theorem empty_long_key_is_help p :
  built p →
  _find_arg p "" = Some help_flag
  ∧ ∀ v, parse p ["--=" +:+ v] = Raised (SystemExit 0).
Proof.
  intros Hb. destruct (built_arguments p Hb) as [rest Hargs].
  assert (Hfind : _find_arg p "" = Some help_flag).
  { unfold _find_arg. rewrite Hargs. reflexivity. }
  split; [exact Hfind|]. intros v. apply parse_single_help.
  rewrite (loop_body_long_inline _ _ _ "" v) by done. by rewrite Hfind.
Qed.

(** ** Unknown flags *)

Lemma process_arg_Raised arg_def args i v e :
  _process_arg arg_def args i v = Raised e →
  e = ArgError (Argument_requires_value (arg_name arg_def))
  ∨ ∃ typ tok, e = ValueError typ tok.
Proof.
  unfold _process_arg. intros Hp.
  destruct (no_value_action arg_def); [discriminate|].
  destruct v as [s|].
  - destruct (_convert s _) as [c|e'] eqn:Hc; [discriminate|].
    injection Hp as <-. apply convert_Raised in Hc as [-> _]. eauto.
  - destruct (_ && _); [discriminate|].
    destruct (length args <=? i + 1); [injection Hp as <-; by left|].
    destruct (_convert _ _) as [c|e'] eqn:Hc; [discriminate|].
    injection Hp as <-. apply convert_Raised in Hc as [-> _]. eauto.
Qed.

Lemma store_value_Raised result arg_def v collected e :
  _store_value result arg_def v collected = Raised e →
  e = TypeError ∨ e = ArgError (Invalid_choice_for (arg_name arg_def) v).
Proof.
  unfold _store_value. intros Hs.
  repeat match type of Hs with
         | (if ?b then _ else _) = _ => destruct b
         | match ?o with Some _ => _ | None => _ end = _ => destruct o
         end;
    try discriminate; injection Hs as <-; auto.
Qed.

(* the branch for long flags, in terms of the key of the token *)
Lemma long_flag_key self args arg f :
  long_flag self args arg f
  = match _find_arg self (long_key arg) with
    | None => Raised (ArgError (Unknown_argument_long (long_key arg)))
    | Some arg_def =>
        let* (i, v) :=
          _process_arg arg_def args (f_i f)
            (match split_eq (str_from 2 arg) with
             | Some (_, v) => Some v
             | None => None
             end) in
        let* (result, collected) :=
          _store_value (f_result f) arg_def v (f_collected f) in
        Returned (mkFrame i (f_pos_idx f) collected result)
    end.
Proof.
  unfold long_flag, long_key.
  destruct (split_eq (str_from 2 arg)) as [[k v]|]; reflexivity.
Qed.

Lemma loop_body_long self args f :
  startswith "--" (item args (f_i f)) = true → item args (f_i f) ≠ "--" →
  loop_body self args f
  = let* f' := long_flag self args (item args (f_i f)) f in
    Returned (Next (step_i f')).
Proof.
  intros Hstart Hne. unfold loop_body.
  apply String.eqb_neq in Hne. by rewrite Hne, Hstart.
Qed.

Lemma find_arg_None self name :
  _find_arg self name = None ↔ Forall (unmatched name) (arguments self).
Proof.
  unfold _find_arg. generalize (arguments self) as l.
  induction l as [|a l IH]; simpl; [by split|].
  destruct (String.eqb (arg_name a) name) eqn:Hn; simpl.
  - apply String.eqb_eq in Hn. split; [discriminate|].
    intros Hall. apply Forall_cons in Hall as [[? _] _]. done.
  - destruct (String.eqb (arg_dest a) name) eqn:Hd.
    + apply String.eqb_eq in Hd. split; [discriminate|].
      intros Hall. apply Forall_cons in Hall as [[_ ?] _]. done.
    + apply String.eqb_neq in Hn, Hd. rewrite IH. split.
      * intros Hall. by apply Forall_cons.
      * intros Hall. by apply Forall_cons in Hall as [_ ?].
Qed.

(** X5. A token that starts with "--" (other than "--" itself) raises
    "Unknown argument: --key" exactly when no declared flag has the key, the
    text between the dashes and the first "=", as its name or as its dest;
    the key in the message never contains the inline value.  When the scan
    comes to such a token, [parse] fails with that error. *)
Theorem unknown_long_flag self args f :
  f_i f < length args →
  startswith "--" (item args (f_i f)) = true → item args (f_i f) ≠ "--" →
  ((∃ k, loop_body self args f = Raised (ArgError (Unknown_argument_long k)))
   ↔ Forall (unmatched (long_key (item args (f_i f)))) (arguments self))
  ∧ (∀ k, loop_body self args f = Raised (ArgError (Unknown_argument_long k)) →
          k = long_key (item args (f_i f)))
  ∧ (reaches self args (start self) f →
     Forall (unmatched (long_key (item args (f_i f)))) (arguments self) →
     parse self args
     = Raised (ArgError (Unknown_argument_long (long_key (item args (f_i f)))))).
Proof.
  intros Hlt Hstart Hne.
  pose proof (loop_body_long self args f Hstart Hne) as Hbody.
  rewrite long_flag_key in Hbody.
  assert (Hfound : ∀ k, loop_body self args f = Raised (ArgError (Unknown_argument_long k)) →
            _find_arg self (long_key (item args (f_i f))) = None
            ∧ k = long_key (item args (f_i f))).
  { intros k Hk. rewrite Hbody in Hk.
    destruct (_find_arg self _) as [a|]; [|by injection Hk as <-].
    exfalso.
    destruct (_process_arg _ _ _ _) as [[i v]|e] eqn:Hp; cbn [bind] in Hk.
    - destruct (_store_value _ _ _ _) as [[r c]|e] eqn:Hs; cbn [bind] in Hk;
        [discriminate|].
      injection Hk as ->. by apply store_value_Raised in Hs as [?|?].
    - injection Hk as ->. by apply process_arg_Raised in Hp as [?|(? & ? & ?)]. }
  split; [|split].
  - rewrite <- find_arg_None. split.
    + intros [k Hk]. by apply Hfound in Hk as [? _].
    + intros Hnone. rewrite Hbody, Hnone. eauto.
  - intros k Hk. by apply Hfound in Hk as [_ ?].
  - intros Hr Hall. apply find_arg_None in Hall.
    apply (parse_raises_at _ _ f); [exact Hr | exact Hlt |].
    by rewrite Hbody, Hall.
Qed.

Lemma find_arg_short_Some self short a :
  _find_arg_short self short = Some a → a ∈ arguments self ∧ arg_short a = short.
Proof.
  unfold _find_arg_short. intros Hf. apply find_some in Hf as [Hin Heq].
  split; [by apply list_elem_of_In | by apply String.eqb_eq].
Qed.

Lemma find_arg_short_None self short :
  Forall (λ a, arg_short a ≠ short) (arguments self) →
  _find_arg_short self short = None.
Proof.
  unfold _find_arg_short. generalize (arguments self) as l.
  induction 1 as [|a l Ha _ IH]; simpl; [reflexivity|].
  apply String.eqb_neq in Ha. by rewrite Ha.
Qed.

(** X6. In a short cluster a character is matched against the whole short
    of each flag: a flag found for a character has exactly that character
    as its short, so a flag declared without short, or with a longer one,
    is never found.  A character that matches no flag, after characters of
    flags that take no value, makes [parse] fail with "Unknown argument:
    -x"; the flags before it were stored, but no result comes back. *)
Theorem unknown_short_in_cluster self args f c chars :
  reaches self args (start self) f → f_i f < length args →
  item args (f_i f) = String "-" (string_of_list_ascii (c :: chars)) →
  c ≠ "-"%char →
  (∀ x a, _find_arg_short self (String x "") = Some a →
          a ∈ arguments self ∧ arg_short a = String x "")
  ∧ (∀ pre flags x post f1, c :: chars = pre ++ x :: post →
       Forall2 (no_value_short self) pre flags →
       store_flags flags f = Returned f1 →
       Forall (λ a, arg_short a ≠ String x "") (arguments self) →
       parse self args = Raised (ArgError (Unknown_argument_short (String x ""))))
  ∧ (Forall (λ a, String.length (arg_short a) ≠ 1) (arguments self) →
     parse self args = Raised (ArgError (Unknown_argument_short (String c "")))).
Proof.
  intros Hr Hlt Harg Hc.
  pose proof (loop_body_cluster self args f c chars Harg Hc) as Hbody.
  assert (Hfail : ∀ pre flags x post f1, c :: chars = pre ++ x :: post →
       Forall2 (no_value_short self) pre flags →
       store_flags flags f = Returned f1 →
       Forall (λ a, arg_short a ≠ String x "") (arguments self) →
       parse self args = Raised (ArgError (Unknown_argument_short (String x "")))).
  { intros pre flags x post f1 Hchars Hpre Hstore Hnone.
    apply (parse_raises_at _ _ f); [exact Hr | exact Hlt |].
    rewrite Hbody, Hchars, (cluster_prefix _ _ _ _ flags) by exact Hpre.
    rewrite Hstore. cbn [bind cluster].
    by rewrite find_arg_short_None. }
  split; [intros x a; apply find_arg_short_Some|]. split; [exact Hfail|].
  intros Hall. apply (Hfail [] [] c chars f); [reflexivity | constructor | reflexivity |].
  eapply Forall_impl; [exact Hall|]. intros a Hlen Heq. apply Hlen. by rewrite Heq.
Qed.

(** ** Flags with one value *)

Lemma set_arg_set_arg r k v1 v2 : set_arg (set_arg r k v1) k v2 = set_arg r k v2.
Proof. unfold set_arg. simpl. by rewrite insert_insert_eq. Qed.

Lemma plain_store_takes_value a : plain_store a → no_value_action a = false.
Proof. intros (Ha & _). unfold no_value_action. by rewrite Ha. Qed.

Lemma store_value_plain r a v c :
  plain_store a →
  _store_value r a (VStr v) c = Returned (set_arg r (dest_of a) (VStr v), c).
Proof.
  intros (Ha & Hn & _ & Hc). unfold _store_value. by rewrite Ha, Hn, Hc.
Qed.

(* the turn of the loop on --key, followed by a token, for a plain flag *)
Lemma loop_body_store_bare self args f key a :
  key ≠ "" → split_eq key = None → _find_arg self key = Some a → plain_store a →
  item args (f_i f) = "--" +:+ key → f_i f + 1 < length args →
  loop_body self args f
  = Returned (Next (mkFrame (f_i f + 2) (f_pos_idx f) (f_collected f)
                      (set_arg (f_result f) (dest_of a)
                         (VStr (item args (f_i f + 1)))))).
Proof.
  intros Hne Hkey Hfind Hplain Harg Hnext.
  rewrite (loop_body_long_bare _ _ _ key) by done. rewrite Hfind.
  rewrite process_arg_consumes;
    [|by apply plain_store_takes_value
     |destruct Hplain as (_ & -> & _); discriminate | exact Hnext].
  destruct Hplain as (Ha & Hn & Ht & Hc). rewrite Ht. cbn [_convert bind].
  rewrite store_value_plain by done. cbn [bind].
  by replace (f_i f + 1 + 1) with (f_i f + 2) by lia.
Qed.

(* the turn of the loop on --key=v for a plain flag *)
Lemma loop_body_store_inline self args f key v a :
  split_eq key = None → _find_arg self key = Some a → plain_store a →
  item args (f_i f) = "--" +:+ key +:+ "=" +:+ v →
  loop_body self args f
  = Returned (Next (mkFrame (f_i f + 1) (f_pos_idx f) (f_collected f)
                      (set_arg (f_result f) (dest_of a) (VStr v)))).
Proof.
  intros Hkey Hfind Hplain Harg.
  rewrite (loop_body_long_inline _ _ _ key v) by done. rewrite Hfind.
  unfold _process_arg. rewrite plain_store_takes_value by done.
  destruct Hplain as (Ha & Hn & Ht & Hc). rewrite Ht. cbn [_convert bind].
  by rewrite store_value_plain.
Qed.

(** X7. The value of a flag of type str with action store, one value and
    no choices is taken verbatim.  Given as --key=v it is the whole text
    after the first "=", which may be empty or hold further "=" signs, and
    the next token is scanned on its own.  Given as --key it is the next
    token whatever that token is, a "--", a "--help" or another flag
    included, and the scan goes on after it.  Both forms store the same
    value under the flag's destination. *)
Theorem plain_store_value_verbatim self key a :
  key ≠ "" → split_eq key = None → _find_arg self key = Some a → plain_store a →
  (∀ v rest,
     reaches self (("--" +:+ key) :: v :: rest) (start self)
       (mkFrame 2 0 []
          (set_arg (_apply_defaults self empty_result) (dest_of a) (VStr v))))
  ∧ (∀ v rest,
       reaches self (("--" +:+ key +:+ "=" +:+ v) :: rest) (start self)
         (mkFrame 1 0 []
            (set_arg (_apply_defaults self empty_result) (dest_of a) (VStr v))))
  ∧ (∀ v, parse self ["--" +:+ key; v]
          = finish self
              (mkFrame 0 0 []
                 (set_arg (_apply_defaults self empty_result) (dest_of a) (VStr v))))
  ∧ (∀ v, parse self ["--" +:+ key +:+ "=" +:+ v] = parse self ["--" +:+ key; v]).
Proof.
  intros Hne Hkey Hfind Hplain.
  assert (Hbare : ∀ v rest,
     reaches self (("--" +:+ key) :: v :: rest) (start self)
       (mkFrame 2 0 []
          (set_arg (_apply_defaults self empty_result) (dest_of a) (VStr v)))).
  { intros v rest. apply reaches_step; [simpl; lia|].
    rewrite (loop_body_store_bare _ _ _ key a) by (done || (simpl; lia)).
    reflexivity. }
  assert (Hinline : ∀ v rest,
     reaches self (("--" +:+ key +:+ "=" +:+ v) :: rest) (start self)
       (mkFrame 1 0 []
          (set_arg (_apply_defaults self empty_result) (dest_of a) (VStr v)))).
  { intros v rest. apply reaches_step; [simpl; lia|].
    rewrite (loop_body_store_inline _ _ _ key v a) by done. reflexivity. }
  assert (Hparse : ∀ v, parse self ["--" +:+ key; v]
          = finish self
              (mkFrame 0 0 []
                 (set_arg (_apply_defaults self empty_result) (dest_of a) (VStr v)))).
  { intros v. rewrite (parse_at_end _ _ _ (Hbare v [])) by (simpl; lia).
    by apply finish_state. }
  split; [exact Hbare|]. split; [exact Hinline|]. split; [exact Hparse|].
  intros v. rewrite Hparse.
  rewrite (parse_at_end _ _ _ (Hinline v [])) by (simpl; lia).
  by apply finish_state.
Qed.

(** X8. Storing is last-write-wins for every flag that is neither counted
    nor collected: after a first store has succeeded, a second store on the
    same flag gives what the second store alone gives.  On the command
    line, for a plain flag, an earlier occurrence leaves no trace:
    --key=v1 --key v2 parses as --key v2. *)
Theorem last_write_wins self :
  (∀ r a v1 v2 c r1 c1,
     arg_action a ≠ "count" → arg_action a ≠ "append" →
     str_in (arg_nargs a) ["*"; "+"] = false →
     _store_value r a v1 c = Returned (r1, c1) →
     _store_value r1 a v2 c1 = _store_value r a v2 c)
  ∧ (∀ key a v1 v2,
       key ≠ "" → split_eq key = None → _find_arg self key = Some a →
       plain_store a →
       parse self ["--" +:+ key +:+ "=" +:+ v1; "--" +:+ key; v2]
       = parse self ["--" +:+ key; v2]).
Proof.
  split.
  - intros r a v1 v2 c r1 c1 Hcount Happend Hmulti Hs.
    apply String.eqb_neq in Hcount, Happend.
    unfold _store_value in *. rewrite Hcount, Happend, Hmulti in *.
    cbn [orb] in *.
    destruct (String.eqb (arg_action a) "store_true").
    { injection Hs as <- <-. by rewrite set_arg_set_arg. }
    destruct (String.eqb (arg_action a) "store_false").
    { injection Hs as <- <-. by rewrite set_arg_set_arg. }
    destruct (_ && negb (py_in v1 _)); [discriminate|].
    injection Hs as <- <-.
    destruct (_ && negb (py_in v2 _)); [reflexivity|].
    by rewrite set_arg_set_arg.
  - intros key a v1 v2 Hne Hkey Hfind Hplain.
    set (args := ["--" +:+ key +:+ "=" +:+ v1; "--" +:+ key; v2]).
    set (d := _apply_defaults self empty_result).
    assert (Hr : reaches self args (start self)
                   (mkFrame 3 0 [] (set_arg d (dest_of a) (VStr v2)))).
    { apply (reaches_trans _ _ _ (mkFrame 1 0 [] (set_arg d (dest_of a) (VStr v1)))).
      - apply reaches_step; [simpl; lia|].
        rewrite (loop_body_store_inline _ _ _ key v1 a) by done. reflexivity.
      - apply reaches_step; [simpl; lia|].
        rewrite (loop_body_store_bare _ _ _ key a) by (done || (simpl; lia)).
        simpl. by rewrite set_arg_set_arg. }
    rewrite (parse_at_end _ _ _ Hr) by (simpl; lia).
    assert (Hr2 : reaches self ["--" +:+ key; v2] (start self)
                    (mkFrame 2 0 [] (set_arg d (dest_of a) (VStr v2)))).
    { apply reaches_step; [simpl; lia|].
      rewrite (loop_body_store_bare _ _ _ key a) by (done || (simpl; lia)).
      reflexivity. }
    rewrite (parse_at_end _ _ _ Hr2) by (simpl; lia).
    by apply finish_state.
Qed.

(** ** Counted and collected flags *)

Lemma count_is_no_value a : arg_action a = "count" → no_value_action a = true.
Proof. intros Ha. unfold no_value_action. by rewrite Ha. Qed.

Lemma store_value_count r a c v m :
  arg_action a = "count" → r_args r !! dest_of a = Some (VInt m) →
  _store_value r a v c = Returned (set_arg r (dest_of a) (VInt (m + 1)), c).
Proof. intros Ha Hm. unfold _store_value. by rewrite Ha, Hm. Qed.

(* the scan over n tokens --key of a count flag *)
Lemma reaches_count self args key a :
  key ≠ "" → split_eq key = None → _find_arg self key = Some a →
  arg_action a = "count" →
  ∀ n f m rest,
    drop (f_i f) args = replicate n ("--" +:+ key) ++ rest →
    r_args (f_result f) !! dest_of a = Some (VInt m) →
    reaches self args f
      (mkFrame (f_i f + n) (f_pos_idx f) (f_collected f)
         (match n with
          | O => f_result f
          | S _ => set_arg (f_result f) (dest_of a) (VInt (m + Z.of_nat n))
          end)).
Proof.
  intros Hne Hkey Hfind Ha. induction n as [|n IH]; intros f m rest Hdrop Hm.
  - rewrite Nat.add_0_r. destruct f. apply reaches_here.
  - simpl in Hdrop. apply drop_cons_inv in Hdrop as (Hlt & Harg & Hdrop).
    set (f1 := mkFrame (f_i f + 1) (f_pos_idx f) (f_collected f)
                 (set_arg (f_result f) (dest_of a) (VInt (m + 1)))).
    apply (reaches_trans _ _ _ f1).
    + apply reaches_step; [exact Hlt|].
      rewrite (loop_body_long_bare _ _ _ key) by done. rewrite Hfind.
      unfold _process_arg. rewrite count_is_no_value by done. cbn [bind].
      by rewrite (store_value_count _ _ _ _ m).
    + assert (Hm1 : r_args (f_result f1) !! dest_of a = Some (VInt (m + 1)))
        by apply lookup_insert_eq.
      assert (Hdrop1 : drop (f_i f1) args = replicate n ("--" +:+ key) ++ rest)
        by (simpl; by rewrite Nat.add_1_r).
      pose proof (IH f1 (m + 1)%Z rest Hdrop1 Hm1) as Hreach.
      replace (mkFrame (f_i f + S n) (f_pos_idx f) (f_collected f)
                 (set_arg (f_result f) (dest_of a) (VInt (m + Z.of_nat (S n)))))
        with (mkFrame (f_i f1 + n) (f_pos_idx f1) (f_collected f1)
                (match n with
                 | O => f_result f1
                 | S _ => set_arg (f_result f1) (dest_of a)
                            (VInt (m + 1 + Z.of_nat n))
                 end)); [exact Hreach|].
      simpl. f_equal; [lia|]. destruct n as [|n].
      * by replace (m + Z.of_nat 1)%Z with (m + 1)%Z by lia.
      * rewrite set_arg_set_arg. do 2 f_equal. lia.
Qed.

Lemma store_flags_count a :
  arg_action a = "count" →
  ∀ n f m, r_args (f_result f) !! dest_of a = Some (VInt m) →
    store_flags (replicate n a) f
    = Returned (mkFrame (f_i f) (f_pos_idx f) (f_collected f)
                  (match n with
                   | O => f_result f
                   | S _ => set_arg (f_result f) (dest_of a) (VInt (m + Z.of_nat n))
                   end)).
Proof.
  intros Ha. induction n as [|n IH]; intros f m Hm; simpl.
  - by destruct f.
  - rewrite (store_value_count _ _ _ _ m) by done. cbn [bind].
    rewrite (IH _ (m + 1)%Z) by apply lookup_insert_eq. simpl.
    do 2 f_equal. destruct n as [|n].
    + by replace (m + Z.of_nat 1)%Z with (m + 1)%Z by lia.
    + rewrite set_arg_set_arg. do 2 f_equal. lia.
Qed.

(** X9. Counting.  For a flag with action count whose destination starts
    at 0, [n] occurrences of --key leave [n] under the destination, and so
    does one cluster of [n] times its short: the tokens
    ["--key"] * n and the token "-ccc..." have the same outcome, and a result
    that comes back holds the integer [n]. *)
Theorem count_counts_occurrences self key a n :
  key ≠ "" → split_eq key = None → _find_arg self key = Some a →
  arg_action a = "count" →
  r_args (_apply_defaults self empty_result) !! dest_of a = Some (VInt 0) →
  let counted :=
    match n with
    | O => _apply_defaults self empty_result
    | S _ => set_arg (_apply_defaults self empty_result) (dest_of a)
               (VInt (Z.of_nat n))
    end in
  parse self (replicate n ("--" +:+ key)) = finish self (mkFrame 0 0 [] counted)
  ∧ (∀ c, 0 < n → c ≠ "-"%char → _find_arg_short self (String c "") = Some a →
       parse self [String "-" (string_of_list_ascii (replicate n c))]
       = finish self (mkFrame 0 0 [] counted))
  ∧ (∀ r, finish self (mkFrame 0 0 [] counted) = Returned r →
          r_args r !! dest_of a = Some (VInt (Z.of_nat n))).
Proof.
  intros Hne Hkey Hfind Ha H0 counted. split; [|split].
  - pose proof (reaches_count self (replicate n ("--" +:+ key)) key a
                  Hne Hkey Hfind Ha n (start self) 0%Z []) as Hr.
    rewrite app_nil_r in Hr. specialize (Hr eq_refl H0).
    rewrite (parse_at_end _ _ _ Hr) by (simpl; by rewrite length_replicate).
    by apply finish_state.
  - intros c Hn Hc Hshort. destruct n as [|n]; [lia|].
    set (tok := String "-" (string_of_list_ascii (replicate (S n) c))).
    assert (Hr : reaches self [tok] (start self)
                   (mkFrame 1 0 [] counted)).
    { apply reaches_step; [simpl; lia|].
      rewrite (loop_body_cluster _ _ _ c (replicate n c)) by done.
      change (c :: replicate n c) with (replicate (S n) c).
      rewrite <- (app_nil_r (replicate (S n) c)).
      rewrite (cluster_prefix _ _ _ _ (replicate (S n) a)).
      - rewrite (store_flags_count a Ha (S n) (start self) 0%Z H0). reflexivity.
      - apply Forall2_replicate. split; [exact Hshort | by apply count_is_no_value]. }
    rewrite (parse_at_end _ _ _ Hr) by (simpl; lia). by apply finish_state.
  - intros r Hfin. apply finish_Returned in Hfin as (-> & _ & _). simpl.
    subst counted. destruct n as [|n]; [exact H0 | apply lookup_insert_eq].
Qed.

Lemma collect_fold (d : string) (vs : list string) (l : list value) c :
  fold_left (λ c v, collect c d (VStr v)) vs ((d, l) :: c)
  = (d, l ++ (VStr <$> vs)) :: c.
Proof.
  revert l. induction vs as [|v vs IH]; intros l; simpl.
  - by rewrite app_nil_r.
  - rewrite String.eqb_refl, IH. by rewrite <- app_assoc.
Qed.

Lemma store_value_append r a v c :
  plain_append a → _store_value r a v c = Returned (r, collect c (dest_of a) v).
Proof. intros (Ha & Hn & _). unfold _store_value. by rewrite Ha. Qed.

(* the scan over the tokens --key v1 --key v2 ... of an append flag *)
Lemma reaches_append self args key a :
  key ≠ "" → split_eq key = None → _find_arg self key = Some a →
  plain_append a →
  ∀ vs f rest,
    drop (f_i f) args = occurrences key vs ++ rest →
    reaches self args f
      (mkFrame (f_i f + 2 * length vs) (f_pos_idx f)
         (fold_left (λ c v, collect c (dest_of a) (VStr v)) vs (f_collected f))
         (f_result f)).
Proof.
  intros Hne Hkey Hfind Hplain. induction vs as [|v vs IH]; intros f rest Hdrop.
  - simpl. rewrite Nat.add_0_r. destruct f. apply reaches_here.
  - simpl in Hdrop. apply drop_cons_inv in Hdrop as (Hlt & Harg & Hdrop).
    pose proof Hdrop as Hdrop'.
    apply drop_cons_inv in Hdrop' as (Hlt2 & Hval & Hdrop2).
    set (f1 := mkFrame (f_i f + 2) (f_pos_idx f)
                 (collect (f_collected f) (dest_of a) (VStr v)) (f_result f)).
    apply (reaches_trans _ _ _ f1).
    + apply reaches_step; [exact Hlt|].
      rewrite (loop_body_long_bare _ _ _ key) by done. rewrite Hfind.
      destruct Hplain as (Ha & Hn & Ht).
      rewrite process_arg_consumes;
        [|unfold no_value_action; by rewrite Ha | rewrite Hn; discriminate | lia].
      rewrite Ht. cbn [_convert bind].
      rewrite store_value_append by done. cbn [bind].
      replace (f_i f + 1) with (S (f_i f)) by lia. rewrite Hval.
      by replace (S (f_i f) + 1) with (f_i f + 2) by lia.
    + assert (Hdrop1 : drop (f_i f1) args = occurrences key vs ++ rest).
      { simpl. by replace (f_i f + 2) with (S (S (f_i f))) by lia. }
      pose proof (IH f1 rest Hdrop1) as Hreach. simpl in Hreach. simpl.
      by replace (f_i f + S (length vs + S (length vs + 0)))
        with (f_i f + 2 + (length vs + (length vs + 0))) by lia.
Qed.

(** X10. Collecting.  For a flag of type str with action append, the
    tokens --key v1 --key v2 ... put the values, in the order given, in one
    list that the flush stores under the destination; the choices of the
    flag play no part, and the values are taken whatever they look like.
    With no occurrence the destination keeps its default. *)
Theorem append_collects_in_order self key a vs :
  key ≠ "" → split_eq key = None → _find_arg self key = Some a →
  plain_append a →
  parse self (occurrences key vs)
  = finish self
      (mkFrame 0 0
         (match vs with [] => [] | _ => [(dest_of a, VStr <$> vs)] end)
         (_apply_defaults self empty_result))
  ∧ (vs ≠ [] → ∀ r, parse self (occurrences key vs) = Returned r →
     r_args r !! dest_of a = Some (VList (VStr <$> vs))).
Proof.
  intros Hne Hkey Hfind Hplain.
  assert (Hparse : parse self (occurrences key vs)
    = finish self
        (mkFrame 0 0
           (match vs with [] => [] | _ => [(dest_of a, VStr <$> vs)] end)
           (_apply_defaults self empty_result))).
  { pose proof (reaches_append self (occurrences key vs) key a
                  Hne Hkey Hfind Hplain vs (start self) []) as Hr.
    rewrite app_nil_r in Hr. specialize (Hr eq_refl).
    rewrite (parse_at_end _ _ _ Hr).
    - apply finish_state; [|reflexivity]. simpl.
      destruct vs as [|v vs]; [reflexivity|]. simpl. by rewrite collect_fold.
    - simpl. unfold occurrences. clear.
      induction vs as [|v vs IH]; simpl; lia. }
  split; [exact Hparse|].
  intros Hvs r. rewrite Hparse. intros Hfin.
  apply finish_Returned in Hfin as (-> & _ & _).
  destruct vs as [|v vs]; [done|]. simpl. apply lookup_insert_eq.
Qed.

(** ** Bare tokens *)

Lemma set_remaining_id r : set_remaining r (r_remaining r) = r.
Proof. by destruct r. Qed.

Lemma set_remaining_set_remaining r l1 l2 :
  set_remaining (set_remaining r l1) l2 = set_remaining r l2.
Proof. reflexivity. Qed.

Lemma lookup_drop_nil {A} (l : list A) n : drop n l = [] → l !! n = None.
Proof.
  intros Hd. apply lookup_ge_None.
  apply (f_equal length) in Hd. rewrite length_drop in Hd. simpl in Hd. lia.
Qed.

Lemma drop_cons_lookup {A} (l : list A) n x l' :
  drop n l = x :: l' → l !! n = Some x ∧ drop (S n) l = l'.
Proof.
  intros Hd.
  assert (Hl : l !! n = Some x).
  { rewrite <- (Nat.add_0_r n), <- lookup_drop, Hd. reflexivity. }
  split; [exact Hl|]. rewrite (drop_S _ _ _ Hl) in Hd. by injection Hd.
Qed.

(* the turn of the loop on a bare token that fills a single positional *)
Lemma loop_body_single self args f p :
  bare (item args (f_i f)) → positionals self !! f_pos_idx f = Some p →
  single_plain p →
  loop_body self args f
  = Returned (Next (mkFrame (f_i f + 1) (f_pos_idx f + 1) (f_collected f)
                      (set_arg (f_result f) (pos_name p)
                         (VStr (item args (f_i f)))))).
Proof.
  intros Hbare Hpos (Ht & Hc & Hn). rewrite loop_body_bare by exact Hbare.
  unfold bare_token. rewrite Hpos, Ht. cbn [_convert bind].
  by rewrite Hc, Hn.
Qed.

(* the turn of the loop on a bare token taken by a multi-valued positional *)
Lemma loop_body_multi self args f p :
  bare (item args (f_i f)) → positionals self !! f_pos_idx f = Some p →
  multi_plain p →
  loop_body self args f
  = Returned (Next (mkFrame (f_i f + 1) (f_pos_idx f)
                      (collect (f_collected f) (pos_name p)
                         (VStr (item args (f_i f))))
                      (f_result f))).
Proof.
  intros Hbare Hpos (Ht & Hc & Hn). rewrite loop_body_bare by exact Hbare.
  unfold bare_token. rewrite Hpos, Ht. cbn [_convert bind].
  by rewrite Hc, Hn.
Qed.

(* the turn of the loop on a bare token when no positional is left *)
Lemma loop_body_excess self args f :
  bare (item args (f_i f)) → positionals self !! f_pos_idx f = None →
  loop_body self args f
  = Returned (Next (mkFrame (f_i f + 1) (f_pos_idx f) (f_collected f)
                      (set_remaining (f_result f)
                         (r_remaining (f_result f) ++ [item args (f_i f)])))).
Proof.
  intros Hbare Hpos. rewrite loop_body_bare by exact Hbare.
  unfold bare_token. by rewrite Hpos.
Qed.

(* bare tokens over single positionals, then beyond them *)
Lemma reaches_bare_singles self args :
  ∀ toks f ps rest,
    drop (f_i f) args = toks ++ rest → Forall bare toks →
    drop (f_pos_idx f) (positionals self) = ps → Forall single_plain ps →
    ∃ f', reaches self args f f' ∧ f_i f' = f_i f + length toks
          ∧ f_collected f' = f_collected f
          ∧ f_result f'
            = set_remaining (fill ps toks (f_result f))
                (r_remaining (f_result f) ++ drop (length ps) toks).
Proof.
  induction toks as [|t toks IH]; intros f ps rest Hdrop Hbare Hps Hsingle.
  - exists f. split; [apply reaches_here|]. split; [simpl; lia|].
    split; [reflexivity|].
    rewrite drop_nil, app_nil_r.
    destruct ps; simpl; by rewrite set_remaining_id.
  - simpl in Hdrop. apply drop_cons_inv in Hdrop as (Hlt & Harg & Hdrop).
    apply Forall_cons in Hbare as [Hbt Hbare]. rewrite <- Harg in Hbt.
    destruct ps as [|p ps].
    + apply lookup_drop_nil in Hps as Hnone.
      set (f1 := mkFrame (f_i f + 1) (f_pos_idx f) (f_collected f)
                   (set_remaining (f_result f) (r_remaining (f_result f) ++ [t]))).
      destruct (IH f1 [] rest) as (f' & Hr & Hend & Hc & Hres);
        [simpl; by rewrite Nat.add_1_r | exact Hbare
        | simpl; apply (f_equal length) in Hps; rewrite length_drop in Hps;
          apply drop_ge; simpl in Hps; lia
        | constructor |].
      exists f'. split; [|split; [simpl in *; lia|split; [exact Hc|]]].
      * apply (reaches_trans _ _ _ f1); [|exact Hr].
        apply reaches_step; [exact Hlt|].
        rewrite loop_body_excess by done. by rewrite Harg.
      * rewrite Hres. simpl. by rewrite <- app_assoc.
    + apply drop_cons_lookup in Hps as [Hp Hps].
      apply Forall_cons in Hsingle as [Hsp Hsingle].
      set (f1 := mkFrame (f_i f + 1) (f_pos_idx f + 1) (f_collected f)
                   (set_arg (f_result f) (pos_name p) (VStr t))).
      destruct (IH f1 ps rest) as (f' & Hr & Hend & Hc & Hres);
        [simpl; by rewrite Nat.add_1_r | exact Hbare
        | simpl; by rewrite Nat.add_1_r | exact Hsingle |].
      exists f'. split; [|split; [simpl in *; lia|split; [exact Hc|exact Hres]]].
      apply (reaches_trans _ _ _ f1); [|exact Hr].
      apply reaches_step; [exact Hlt|].
      rewrite (loop_body_single _ _ _ p) by done. by rewrite Harg.
Qed.

(** X11. Bare tokens and single positionals.  When every positional is of
    type str, takes one token and has no choices, a list of tokens none of
    which starts with a dash fills the positionals in the order declared,
    token by token, each under its positional's name, and the tokens beyond
    the declared positionals become [remaining], in order; when there are
    fewer tokens than positionals, nothing is stored for the positionals
    left over. *)
Theorem bare_tokens_fill_positionals self toks :
  Forall single_plain (positionals self) → Forall bare toks →
  parse self toks
  = finish self
      (mkFrame 0 0 []
         (set_remaining
            (fill (positionals self) toks (_apply_defaults self empty_result))
            (drop (length (positionals self)) toks))).
Proof.
  intros Hsingle Hbare.
  destruct (reaches_bare_singles self toks toks (start self) (positionals self) [])
    as (f' & Hr & Hend & Hc & Hres); try done; [simpl; by rewrite app_nil_r|].
  rewrite (parse_at_end _ _ _ Hr) by (rewrite Hend; simpl; lia).
  apply finish_state; [exact Hc|]. rewrite Hres. simpl.
  by rewrite apply_defaults_remaining.
Qed.

(* as many bare tokens as there are single positionals in front *)
Lemma reaches_singles self args :
  ∀ singles toks f others rest,
    drop (f_pos_idx f) (positionals self) = singles ++ others →
    Forall single_plain singles →
    drop (f_i f) args = toks ++ rest → Forall bare toks →
    length toks = length singles →
    reaches self args f
      (mkFrame (f_i f + length toks) (f_pos_idx f + length singles)
         (f_collected f) (fill singles toks (f_result f))).
Proof.
  induction singles as [|p singles IH];
    intros toks f others rest Hps Hsingle Hdrop Hbare Hlen.
  - destruct toks; [|discriminate]. simpl. rewrite !Nat.add_0_r.
    destruct f. apply reaches_here.
  - destruct toks as [|t toks]; [discriminate|].
    simpl in Hps, Hdrop. apply drop_cons_lookup in Hps as [Hp Hps].
    apply drop_cons_inv in Hdrop as (Hlt & Harg & Hdrop).
    apply Forall_cons in Hsingle as [Hsp Hsingle].
    apply Forall_cons in Hbare as [Hbt Hbare]. rewrite <- Harg in Hbt.
    set (f1 := mkFrame (f_i f + 1) (f_pos_idx f + 1) (f_collected f)
                 (set_arg (f_result f) (pos_name p) (VStr t))).
    apply (reaches_trans _ _ _ f1).
    + apply reaches_step; [exact Hlt|].
      rewrite (loop_body_single _ _ _ p) by done. by rewrite Harg.
    + pose proof (IH toks f1 others rest) as Hreach. simpl in Hreach.
      rewrite !Nat.add_1_r in Hreach.
      specialize (Hreach Hps Hsingle Hdrop Hbare ltac:(simpl in Hlen; lia)).
      simpl. by rewrite <- !Nat.add_succ_comm.
Qed.

(* bare tokens in front of a multi-valued positional are all collected *)
Lemma reaches_greedy self args p :
  multi_plain p →
  ∀ toks f rest,
    positionals self !! f_pos_idx f = Some p →
    drop (f_i f) args = toks ++ rest → Forall bare toks →
    reaches self args f
      (mkFrame (f_i f + length toks) (f_pos_idx f)
         (fold_left (λ c t, collect c (pos_name p) (VStr t)) toks (f_collected f))
         (f_result f)).
Proof.
  intros Hmulti. induction toks as [|t toks IH]; intros f rest Hpos Hdrop Hbare.
  - simpl. rewrite Nat.add_0_r. destruct f. apply reaches_here.
  - simpl in Hdrop. apply drop_cons_inv in Hdrop as (Hlt & Harg & Hdrop).
    apply Forall_cons in Hbare as [Hbt Hbare]. rewrite <- Harg in Hbt.
    set (f1 := mkFrame (f_i f + 1) (f_pos_idx f)
                 (collect (f_collected f) (pos_name p) (VStr t)) (f_result f)).
    apply (reaches_trans _ _ _ f1).
    + apply reaches_step; [exact Hlt|].
      rewrite (loop_body_multi _ _ _ p) by done. by rewrite Harg.
    + pose proof (IH f1 rest) as Hreach. simpl in Hreach.
      rewrite Nat.add_1_r in Hreach. specialize (Hreach Hpos Hdrop Hbare).
      simpl. by rewrite <- Nat.add_succ_comm.
Qed.

Lemma fill_remaining (ps : list Positional) (toks : list string) r :
  r_remaining (fill ps toks r) = r_remaining r.
Proof.
  revert toks r. induction ps as [|p ps IH]; intros [|t toks] r; simpl;
    try reflexivity.
  by rewrite IH.
Qed.

(** X12. A multi-valued positional is greedy.  With single positionals in
    front of a positional whose nargs is "*" or "+" (all of type str,
    without choices), bare tokens first fill the single positionals, one
    each, and every further bare token goes to the multi-valued one, in
    order, as one list under its name; the positionals declared after it
    are never filled and nothing goes to [remaining]. *)
Theorem multi_positional_is_greedy self singles m others firsts more :
  positionals self = singles ++ m :: others →
  Forall single_plain singles → multi_plain m →
  length firsts = length singles → more ≠ [] →
  Forall bare (firsts ++ more) →
  parse self (firsts ++ more)
  = finish self
      (mkFrame 0 0 [(pos_name m, VStr <$> more)]
         (fill singles firsts (_apply_defaults self empty_result)))
  ∧ ∀ r, parse self (firsts ++ more) = Returned r →
         r_args r !! pos_name m = Some (VList (VStr <$> more))
         ∧ r_remaining r = [].
Proof.
  intros Hps Hsingle Hmulti Hlen Hmore Hbare.
  apply Forall_app in Hbare as [Hb1 Hb2].
  set (args := firsts ++ more).
  set (f1 := mkFrame (length firsts) (length singles) []
               (fill singles firsts (_apply_defaults self empty_result))).
  assert (Hr1 : reaches self args (start self) f1).
  { apply (reaches_singles self args singles firsts (start self) (m :: others) more);
      done. }
  assert (Hr2 : reaches self args f1
                  (mkFrame (length firsts + length more) (length singles)
                     (fold_left (λ c t, collect c (pos_name m) (VStr t)) more [])
                     (f_result f1))).
  { apply (reaches_greedy self args m Hmulti more f1 []).
    - simpl. rewrite Hps, lookup_app_r by lia. by rewrite Nat.sub_diag.
    - simpl. subst args. rewrite drop_app_length. by rewrite app_nil_r.
    - exact Hb2. }
  assert (Hparse : parse self args
    = finish self
        (mkFrame 0 0 [(pos_name m, VStr <$> more)]
           (fill singles firsts (_apply_defaults self empty_result)))).
  { rewrite (parse_at_end _ _ _ (reaches_trans _ _ _ _ _ Hr1 Hr2)).
    - apply finish_state; [|reflexivity]. simpl.
      destruct more as [|t more]; [done|]. simpl. by rewrite collect_fold.
    - simpl. subst args. by rewrite length_app. }
  split; [exact Hparse|].
  intros r. rewrite Hparse. intros Hfin.
  apply finish_Returned in Hfin as (-> & _ & _). simpl. split.
  - apply lookup_insert_eq.
  - rewrite fill_remaining. by rewrite apply_defaults_remaining.
Qed.

(** ** Tokens before a separator *)

Lemma parse_at_separator self args f :
  reaches self args (start self) f → f_i f < length args →
  item args (f_i f) = "--" →
  parse self args
  = finish self
      (mkFrame (f_i f) (f_pos_idx f) (f_collected f)
         (set_remaining (f_result f) (drop (f_i f + 1) args))).
Proof.
  intros Hr Hlt Harg. unfold parse.
  rewrite (reaches_parse_loop _ _ _ _ _ Hr) by (simpl; lia).
  destruct (length args) as [|n] eqn:Hlen; [lia|]. simpl.
  rewrite Hlen. apply Nat.ltb_lt in Hlt.
  by rewrite Hlt, loop_body_separator.
Qed.

Lemma fill_nil_r (ps : list Positional) r : fill ps [] r = r.
Proof. by destruct ps. Qed.

(** X13. The separator replaces [remaining], it does not extend it.  With
    single positionals of type str without choices, bare tokens before a
    "--" fill the positionals, and those beyond the declared positionals,
    which the scan had put in [remaining], are dropped when the "--" is
    reached: [remaining] is exactly the tokens after it.  Without
    positionals, bare tokens before "--" leave no trace at all. *)
Theorem separator_drops_earlier_remaining self pre post :
  Forall single_plain (positionals self) → Forall bare pre →
  parse self (pre ++ "--" :: post)
  = finish self
      (mkFrame 0 0 []
         (set_remaining
            (fill (positionals self) pre (_apply_defaults self empty_result))
            post))
  ∧ (positionals self = [] →
     parse self (pre ++ "--" :: post) = parse self ("--" :: post)).
Proof.
  intros Hsingle Hbare.
  assert (Hgen : ∀ pre0, Forall bare pre0 →
    parse self (pre0 ++ "--" :: post)
    = finish self
        (mkFrame 0 0 []
           (set_remaining
              (fill (positionals self) pre0 (_apply_defaults self empty_result))
              post))).
  { intros pre0 Hb0.
    destruct (reaches_bare_singles self (pre0 ++ "--" :: post) pre0 (start self)
                (positionals self) ("--" :: post))
      as (f' & Hr & Hend & Hc & Hres); try done.
    simpl in Hend.
    assert (Hd : drop (f_i f') (pre0 ++ "--" :: post) = "--" :: post)
      by (rewrite Hend; apply drop_app_length).
    pose proof Hd as Hd'. apply drop_cons_inv in Hd' as (Hlt & Harg & Hrest).
    rewrite (parse_at_separator _ _ _ Hr Hlt Harg).
    apply finish_state; simpl; [exact Hc|].
    rewrite Nat.add_1_r, Hrest, Hres. reflexivity. }
  split; [by apply Hgen|].
  intros Hnone. rewrite (Hgen pre Hbare).
  pose proof (Hgen [] ltac:(constructor)) as Hempty. simpl in Hempty.
  rewrite Hempty, Hnone. reflexivity.
Qed.

(** ** Validation order *)

(** X14. [_validate] goes through the flags in the order declared and
    stops at the first required flag whose destination is None or absent:
    the error names that flag, by its name even when it has a dest.  In
    [parse] this is the error raised when help was not asked for. *)
Theorem validate_reports_first_missing self pre a post r :
  arguments self = pre ++ a :: post →
  Forall (λ b, arg_required b = false ∨ is_none (r_args r !! dest_of b) = false) pre →
  arg_required a = true → is_none (r_args r !! dest_of a) = true →
  _validate self r = Raised (ArgError (Required_argument (arg_name a)))
  ∧ ∀ args f,
      parse_loop (length args) self args (start self) = Returned f →
      flush (f_collected f) (f_result f) = r →
      truthy (default VNone (r_args r !! "help")) = false →
      parse self args = Raised (ArgError (Required_argument (arg_name a))).
Proof.
  intros Hargs Hpre Hreq Hnone.
  assert (Hv : _validate self r = Raised (ArgError (Required_argument (arg_name a)))).
  { unfold _validate. rewrite Hargs. clear Hargs.
    induction Hpre as [|b pre Hb _ IH]; simpl.
    - by rewrite Hreq, Hnone.
    - destruct Hb as [-> | ->]; [exact IH | by rewrite andb_false_r]. }
  split; [exact Hv|].
  intros args f Hloop Hflush Hhelp. unfold parse. rewrite Hloop. cbn [bind].
  rewrite finish_no_help by (by rewrite Hflush).
  by rewrite Hflush, Hv.
Qed.

(** ** What ends up in [remaining] *)

Lemma cluster_remaining self args arg chars j f f' :
  cluster self args arg chars j f = Returned f' →
  r_remaining (f_result f') = r_remaining (f_result f).
Proof.
  apply (cluster_rel (λ s1 s2, r_remaining s2.1 = r_remaining s1.1)); simpl; auto.
  intros ??? -> ->. reflexivity.
Qed.

Lemma long_flag_remaining self args arg f f' :
  long_flag self args arg f = Returned f' →
  r_remaining (f_result f') = r_remaining (f_result f).
Proof.
  apply (long_flag_rel (λ s1 s2, r_remaining s2.1 = r_remaining s1.1)); simpl; auto.
Qed.

Lemma bare_token_remaining self arg f f' :
  bare_token self arg f = Returned f' →
  r_remaining (f_result f') = r_remaining (f_result f)
  ∨ r_remaining (f_result f') = r_remaining (f_result f) ++ [arg].
Proof.
  unfold bare_token. intros Hb.
  destruct (positionals self !! f_pos_idx f) as [pos_def|].
  - unbind Hb.
    repeat match type of Hb with
           | (if ?b then _ else _) = _ => destruct b
           end;
      try discriminate; injection Hb as <-; by left.
  - injection Hb as <-. by right.
Qed.

(* one turn of the loop: [remaining] is kept, gets the current token, or,
   at a separator, becomes the tokens that follow *)
Lemma loop_body_remaining self args f w :
  loop_body self args f = Returned w →
  match w with
  | Break f' => r_remaining (f_result f') = drop (f_i f + 1) args
  | Next f' =>
      r_remaining (f_result f') = r_remaining (f_result f)
      ∨ r_remaining (f_result f') = r_remaining (f_result f) ++ [item args (f_i f)]
  end.
Proof.
  unfold loop_body. intros Hb.
  destruct (String.eqb _ "--"); [by injection Hb as <-|].
  destruct (startswith "--" _).
  { unbind Hb. injection Hb as <-. left. by apply long_flag_remaining in Hx. }
  destruct (_ && _).
  { unbind Hb. injection Hb as <-. left. by apply cluster_remaining in Hx. }
  unbind Hb. injection Hb as <-. by apply bare_token_remaining in Hx.
Qed.

Lemma flush_remaining collected r :
  r_remaining (flush collected r) = r_remaining r.
Proof.
  refine (flush_rel (λ s1 s2, r_remaining s2.1 = r_remaining s1.1)
            _ _ _ collected r []); simpl; auto.
  intros ??? -> ->. reflexivity.
Qed.

Lemma parse_loop_remaining fuel self args f f' :
  parse_loop fuel self args f = Returned f' →
  r_remaining (f_result f) `sublist_of` take (f_i f) args →
  r_remaining (f_result f') `sublist_of` args.
Proof.
  revert f. induction fuel as [|fuel IH]; simpl; intros f Hp Hsub.
  - injection Hp as <-. etrans; [exact Hsub | apply sublist_take].
  - destruct (f_i f <? length args) eqn:Hlt.
    + apply Nat.ltb_lt in Hlt. unbind Hp.
      pose proof (loop_body_remaining _ _ _ _ Hx) as Hrem.
      destruct x as [f1|f1].
      * injection Hp as <-. rewrite Hrem. apply sublist_drop.
      * apply loop_body_index in Hx. apply (IH f1 Hp).
        assert (Hpre : take (S (f_i f)) args `sublist_of` take (f_i f1) args).
        { replace (take (S (f_i f)) args)
            with (take (S (f_i f)) (take (f_i f1) args))
            by (rewrite take_take; f_equal; lia).
          apply sublist_take. }
        etrans; [|exact Hpre].
        destruct (lookup_lt_is_Some_2 args (f_i f) Hlt) as [t Ht].
        rewrite (take_S_r _ _ _ Ht).
        destruct Hrem as [-> | ->].
        -- by apply sublist_inserts_r.
        -- unfold item. rewrite nth_lookup, Ht. simpl.
           by apply sublist_app.
    + injection Hp as <-. etrans; [exact Hsub | apply sublist_take].
Qed.

(** X15. [remaining] never holds anything but tokens of the input: in every
    result that [parse] returns it is a subsequence of the argument list,
    the tokens in their input order. *)
Theorem remaining_is_subsequence_of_input self args r :
  parse self args = Returned r → r_remaining r `sublist_of` args.
Proof.
  intros Hp. apply parse_Returned in Hp as (f & Hloop & Hfin).
  apply finish_Returned in Hfin as (-> & _ & _).
  rewrite flush_remaining.
  apply (parse_loop_remaining _ _ _ _ _ Hloop). simpl.
  rewrite apply_defaults_remaining. apply sublist_nil_l.
Qed.

(** ** How many tokens a turn consumes *)

Lemma cluster_index_le self args arg chars j f f' :
  cluster self args arg chars j f = Returned f' →
  f_i f' ≤ f_i f + (if decide (j ≤ String.length arg - 2) then 1 else 0).
Proof.
  revert j f. induction chars as [|c chars IH]; simpl; intros j f Hc.
  - injection Hc as <-. lia.
  - destruct (_find_arg_short self _) as [arg_def|]; [|discriminate].
    destruct (no_value_action arg_def).
    + unbind Hc. destruct x as [r1 c1]. apply IH in Hc. simpl in Hc.
      repeat case_decide; lia.
    + destruct (j =? _) eqn:Hj; [|discriminate]. apply Nat.eqb_eq in Hj.
      unbind Hc. destruct x as [i1 v1]. unbind Hc. destruct x as [r1 c1].
      apply process_arg_index in Hx. apply IH in Hc. simpl in Hc.
      repeat case_decide; lia.
Qed.

(** X16. A flag never takes more than one token: value resolution leaves
    the index where it is or moves it by one, also for a flag whose nargs is
    "*" or "+", which takes exactly the next token for each occurrence.  So
    every turn of the scan that goes on consumes one token or two, and no
    token is passed over unread. *)
Theorem a_turn_consumes_one_or_two_tokens :
  (∀ arg_def args i v i' x,
     _process_arg arg_def args i v = Returned (i', x) → i' = i ∨ i' = i + 1)
  ∧ (∀ arg_def args i,
       no_value_action arg_def = false →
       str_in (arg_nargs arg_def) ["*"; "+"] = true → i + 1 < length args →
       _process_arg arg_def args i None
       = let* c := _convert (item args (i + 1)) (arg_type arg_def) in
         Returned (i + 1, c))
  ∧ (∀ self args f f',
       loop_body self args f = Returned (Next f') →
       f_i f' = f_i f + 1 ∨ f_i f' = f_i f + 2).
Proof.
  split; [|split].
  - intros arg_def args i v i' x Hp. apply process_arg_index in Hp. lia.
  - intros arg_def args i Hact Hmulti Hlt.
    apply process_arg_consumes; [exact Hact | | exact Hlt].
    intros Hn. rewrite Hn in Hmulti. discriminate.
  - intros self args f f' Hb. pose proof (loop_body_index _ _ _ _ Hb) as Hlo.
    unfold loop_body in Hb.
    destruct (String.eqb _ "--"); [discriminate|].
    destruct (startswith "--" _).
    { unbind Hb. injection Hb as <-. simpl in *.
      unfold long_flag in Hx.
      destruct (match split_eq _ with Some _ => _ | None => _ end) as [key v].
      destruct (_find_arg self key) as [arg_def|]; [|discriminate].
      unbind Hx. destruct x0 as [i1 v1]. unbind Hx. destruct x0 as [r1 c1].
      injection Hx as <-. apply process_arg_index in Hx0. simpl. lia. }
    destruct (_ && _).
    { unbind Hb. injection Hb as <-. apply cluster_index_le in Hx.
      match type of Hx with context [decide ?P] => destruct (decide P) end;
        simpl in *; lia. }
    unbind Hb. injection Hb as <-. apply bare_token_index in Hx. simpl in *. lia.
Qed.

(** ** What [parse] does not read *)

Section Same_for_scan.
Variables self self' : ArgParser.
Hypothesis Hsame : same_for_scan self self'.

Lemma same_find_arg name : _find_arg self name = _find_arg self' name.
Proof using Hsame. unfold _find_arg. by destruct Hsame as [-> _]. Qed.

Lemma same_find_arg_short short :
  _find_arg_short self short = _find_arg_short self' short.
Proof using Hsame. unfold _find_arg_short. by destruct Hsame as [-> _]. Qed.

Lemma same_cluster args arg chars j f :
  cluster self args arg chars j f = cluster self' args arg chars j f.
Proof using Hsame.
  revert j f. induction chars as [|c chars IH]; intros j f; simpl; [reflexivity|].
  rewrite same_find_arg_short.
  destruct (_find_arg_short self' _) as [arg_def|]; [|reflexivity].
  destruct (no_value_action arg_def).
  - destruct (_store_value _ _ _ _) as [[r c1]|e]; simpl; [apply IH | reflexivity].
  - destruct (j =? _); [|reflexivity].
    destruct (_process_arg _ _ _ _) as [[i v]|e]; simpl; [|reflexivity].
    destruct (_store_value _ _ _ _) as [[r c1]|e]; simpl; [apply IH | reflexivity].
Qed.

Lemma same_long_flag args arg f :
  long_flag self args arg f = long_flag self' args arg f.
Proof using Hsame.
  unfold long_flag.
  destruct (match split_eq _ with Some _ => _ | None => _ end) as [key v].
  by rewrite same_find_arg.
Qed.

Lemma same_bare_token arg f : bare_token self arg f = bare_token self' arg f.
Proof using Hsame.
  unfold bare_token. destruct Hsame as [_ Hpos].
  destruct (positionals self !! f_pos_idx f) as [p|] eqn:Hp.
  - destruct (Forall2_lookup_l _ _ _ _ _ Hpos Hp) as (p' & -> & Hn & Ht & Hg & Hc).
    by rewrite Hn, Ht, Hg, Hc.
  - apply lookup_ge_None in Hp. rewrite (Forall2_length _ _ _ Hpos) in Hp.
    apply lookup_ge_None in Hp. by rewrite Hp.
Qed.

Lemma same_loop_body args f : loop_body self args f = loop_body self' args f.
Proof using Hsame.
  unfold loop_body. by rewrite same_long_flag, same_cluster, same_bare_token.
Qed.

Lemma same_parse_loop fuel args f :
  parse_loop fuel self args f = parse_loop fuel self' args f.
Proof using Hsame.
  revert f. induction fuel as [|fuel IH]; intros f; simpl; [reflexivity|].
  rewrite same_loop_body.
  destruct (f_i f <? length args); [|reflexivity].
  destruct (loop_body self' args f) as [[f1|f1]|e]; simpl; auto.
Qed.

Lemma same_parse args : parse self args = parse self' args.
Proof using Hsame.
  unfold parse, start, finish, _validate, _apply_defaults.
  rewrite same_parse_loop. by destruct Hsame as [-> _].
Qed.
End Same_for_scan.


(** ** The help text *)

Lemma length_append (s t : string) :
  String.length (s +:+ t) = String.length s + String.length t.
Proof. induction s as [|c s IH]; simpl; [reflexivity | by rewrite IH]. Qed.

Lemma str_from_app (p s : string) : str_from (String.length p) (p +:+ s) = s.
Proof. induction p as [|c p IH]; simpl; [by destruct s | exact IH]. Qed.

Lemma append_assoc (s t u : string) : (s +:+ t) +:+ u = s +:+ (t +:+ u).
Proof.
  induction s as [|c s IH]; [reflexivity|].
  change (String c ((s +:+ t) +:+ u) = String c (s +:+ (t +:+ u))). by f_equal.
Qed.

Lemma append_nil_r (s : string) : s +:+ "" = s.
Proof.
  induction s as [|c s IH]; [reflexivity|].
  change (String c (s +:+ "") = String c s). by f_equal.
Qed.

Lemma length_ljust (s : string) (w : nat) :
  String.length (ljust s w) = Nat.max w (String.length s).
Proof.
  unfold ljust.
  rewrite length_append, length_string_of_list_ascii, length_replicate. lia.
Qed.

(** X18. The columns of the help text.  A field printed with a width is
    padded with spaces and never cut: its length is the larger of the width
    and the length of the text.  So on the line of an option the help
    starts at column 28 whenever the flags text ("-s, --name METAVAR") has
    at most 25 characters, and one space after the flags text otherwise;
    on the line of a positional it starts at column 23 for a name of at
    most 20 characters. *)
Theorem help_text_columns :
  (∀ s w, String.length (ljust s w) = Nat.max w (String.length s))
  ∧ (∀ s w, String.length s ≤ w → String.length (ljust s w) = w)
  ∧ (∀ s w, w ≤ String.length s → ljust s w = s)
  ∧ (∀ arg, String.length (option_flags arg) ≤ 25 →
       str_from 28 (option_line arg) = arg_help arg +:+ newline)
  ∧ (∀ arg, 25 ≤ String.length (option_flags arg) →
       option_line arg
       = "  " +:+ option_flags arg +:+ " " +:+ arg_help arg +:+ newline)
  ∧ (∀ pos, String.length (pos_name pos) ≤ 20 →
       str_from 23 (positional_line pos) = pos_help pos +:+ newline)
  ∧ (∀ upper self, positionals self = [] → description self = "" →
       epilog self = "" →
       print_help upper self
       = "Usage: " +:+ prog self +:+ " [OPTIONS]" +:+ newline
         +:+ newline +:+ "Options:" +:+ newline
         +:+ concat_str (map option_line (arguments self))).
Proof.
  assert (Hfull : ∀ s w, w ≤ String.length s → ljust s w = s).
  { intros s w Hle. unfold ljust.
    replace (w - String.length s) with 0 by lia. apply append_nil_r. }
  assert (Hcol : ∀ s w rest, String.length s ≤ w →
            str_from (2 + w + 1) ("  " +:+ ljust s w +:+ " " +:+ rest) = rest).
  { intros s w rest Hle.
    rewrite <- (append_assoc (ljust s w)), <- (append_assoc "  ").
    replace (2 + w + 1) with (String.length (("  " +:+ ljust s w) +:+ " ")).
    - apply str_from_app.
    - rewrite !length_append, length_ljust. simpl. lia. }
  split; [apply length_ljust|].
  split; [|split; [exact Hfull|split; [|split; [|split]]]].
  - intros s w Hle. rewrite length_ljust. lia.
  - intros arg Hle. unfold option_line. by apply (Hcol _ 25).
  - intros arg Hge. unfold option_line. by rewrite Hfull.
  - intros pos Hle. unfold positional_line. by apply (Hcol _ 20).
  - intros upper self Hpos Hdesc Hepi. unfold print_help.
    rewrite Hpos, Hdesc, Hepi. simpl. by rewrite append_nil_r.
Qed.

End Properties.

(** * The schemas of the examples, built through the interface *)

Section Built.
Context `{Builtins}.

Lemma demo_schema_built :
  (let* p := init "argv0" "myapp" "My awesome application"
               "Example: myapp --verbose input.txt" in
   let* p := add_argument p
     (mkArg "verbose" "v" TStr VNone false "Increase verbosity" [] "" "count" "" "") in
   let* p := add_argument p
     (mkArg "output" "o" TStr (VStr "output.txt") false "Output file" [] "" "store" "" "") in
   let* p := add_argument p
     (mkArg "format" "f" TStr (VStr "json") false "Output format"
        [VStr "json"; VStr "xml"; VStr "csv"] "" "store" "" "") in
   let* p := add_argument p
     (mkArg "dry-run" "" TStr VNone false "Don't make any changes" [] ""
        "store_true" "" "") in
   let* p := add_positional p (mkPositional "input" TStr "Input file" "" VNone []) in
   add_positional p (mkPositional "extra" TStr "Extra files" "*" VNone []))
  = Returned demo_schema.
Proof. reflexivity. Qed.

Lemma required_schema_built :
  (let* p := init "prog" "" "" "" in
   add_argument p (mkArg "name" "n" TStr VNone true "" [] "" "store" "" ""))
  = Returned required_schema.
Proof. reflexivity. Qed.

Lemma typed_schema_built :
  (let* p := init "prog" "" "" "" in
   let* p := add_argument p (mkArg "level" "l" TInt VNone false "" [] "" "store" "" "") in
   add_positional p (mkPositional "port" TInt "" "" VNone []))
  = Returned typed_schema.
Proof. reflexivity. Qed.

Lemma shared_schema_built :
  (let* p := init "prog" "" "" "" in
   let* p := add_argument p (mkArg "n" "" TStr VNone false "" [] "" "count" "" "") in
   add_positional p (Positional_default "n"))
  = Returned shared_schema.
Proof. reflexivity. Qed.

Lemma tags_schema_built :
  (let* p := init "prog" "" "" "" in
   add_argument p (mkArg "tag" "t" TStr VNone false "" [VStr "x"] "" "append" "" ""))
  = Returned tags_schema.
Proof. reflexivity. Qed.

Lemma copy_schema_built :
  (let* p := init "prog" "" "" "" in
   let* p := add_positional p (Positional_default "src") in
   add_positional p (Positional_default "dst"))
  = Returned copy_schema.
Proof. reflexivity. Qed.

(* the schemas of the examples are schemas the interface builds *)
Lemma required_schema_is_built : built required_schema.
Proof.
  apply (built_argument
           {| prog := "prog"; description := ""; epilog := "";
              arguments := [help_flag]; positionals := [] |}
           (mkArg "name" "n" TStr VNone true "" [] "" "store" "" ""));
    [apply (built_init "prog" "prog" "" ""); reflexivity | reflexivity].
Qed.

End Built.

(** * The theorems at concrete inputs *)

#[local] Existing Instance decimal_builtins.

(** example_usage: the argument list of the demo and its result *)
Example demo_parse :
  let r := returned empty_result
             (parse demo_schema
                ["--verbose"; "-v"; "-f"; "csv"; "--output=result.csv"; "input.txt";
                 "extra1.txt"; "extra2.txt"]) in
  parse demo_schema
    ["--verbose"; "-v"; "-f"; "csv"; "--output=result.csv"; "input.txt";
     "extra1.txt"; "extra2.txt"] = Returned r
  ∧ r_args r !! "verbose" = Some (VInt 2)
  ∧ r_args r !! "output" = Some (VStr "result.csv")
  ∧ r_args r !! "format" = Some (VStr "csv")
  ∧ r_args r !! "input" = Some (VStr "input.txt")
  ∧ r_args r !! "extra" = Some (VList [VStr "extra1.txt"; VStr "extra2.txt"])
  ∧ r_remaining r = [].
Proof. repeat split; reflexivity. Qed.

Lemma parse_populates_every_destination_witness :
  let r := returned empty_result (parse demo_schema ["-v"; "input.txt"]) in
  parse demo_schema ["-v"; "input.txt"] = Returned r
  ∧ is_Some (r_args r !! "dry-run")
  ∧ r_args (_apply_defaults demo_schema empty_result) !! "output"
    = Some (VStr "output.txt").
Proof.
  destruct (parse_populates_every_destination demo_schema)
    as (_ & Hdefault & Hkeys & _).
  split; [reflexivity|]. split.
  - refine (Hkeys ["-v"; "input.txt"] _ _
              (mkArg "dry-run" "" TStr VNone false "Don't make any changes" [] ""
                 "store_true" "" "") _).
    + reflexivity.
    + unfold demo_schema; simpl. set_solver.
  - refine (Hdefault [help_flag; _]
              (mkArg "output" "o" TStr (VStr "output.txt") false "Output file" []
                 "" "store" "" "") [_; _] eq_refl _).
    repeat constructor; discriminate.
Defined.

(** C2, counterexample. The built-in help flag is declared, and a second
    flag with the same name and the same short is accepted: no error is
    raised and both stand in the schema; the same for a second positional
    of the same name. *)
Lemma add_argument_accepts_duplicate :
  ∃ p0 p1 p2 p3,
    init "prog" "" "" "" = Returned p0
    ∧ (∃ b, b ∈ arguments p0 ∧ arg_name b = "help" ∧ arg_short b = "h")
    ∧ add_argument p0 (Arg_default "help" "h") = Returned p1
    ∧ arguments p1 = [help_flag; Arg_default "help" "h"]
    ∧ add_positional p1 (Positional_default "input") = Returned p2
    ∧ add_positional p2 (Positional_default "input") = Returned p3
    ∧ positionals p3 = [Positional_default "input"; Positional_default "input"]
    ∧ ¬ (∃ e, add_argument p0 (Arg_default "help" "h") = Raised e)
    ∧ ¬ (∃ e, add_positional p2 (Positional_default "input") = Raised e).
Proof.
  do 4 eexists. split; [reflexivity|].
  split; [exists help_flag; split; [set_solver | split; reflexivity]|].
  split; [reflexivity|]. split; [reflexivity|].
  split; [reflexivity|]. split; [reflexivity|]. split; [reflexivity|].
  split; intros [e He]; discriminate.
Qed.

Lemma add_entry_always_appends_witness :
  ∃ p0 p1,
    init "prog" "" "" "" = Returned p0
    ∧ add_argument p0 (mkArg "help" "h" TStr VNone false "" [] "" "count" "" "")
      = Returned p1
    ∧ _find_arg p1 "help" = Some help_flag
    ∧ _find_arg_short p1 "h" = Some help_flag.
Proof.
  do 2 eexists. split; [reflexivity|]. split; [reflexivity|].
  match goal with
  | |- _find_arg ?p1 _ = _ ∧ _ =>
      destruct (add_entry_always_appends
                  {| prog := "prog"; description := ""; epilog := "";
                     arguments := [help_flag]; positionals := [] |})
        as (_ & _ & Hname & Hshort)
  end.
  split.
  - exact (Hname _ _ "help" help_flag eq_refl eq_refl).
  - exact (Hshort _ _ "h" help_flag eq_refl eq_refl).
Defined.

Lemma convert_fails_exactly_on_malformed_witness :
  malformed "abc" TInt
  ∧ parse typed_schema ["--level=abc"; "8080"] = Raised (ValueError TInt "abc")
  ∧ parse typed_schema ["80x"] = Raised (ValueError TInt "80x")
  ∧ _convert "8080" TInt = Returned (VInt 8080).
Proof.
  destruct convert_fails_exactly_on_malformed
    as (_ & _ & Hint & _ & _ & Hflag & Hpos).
  split; [reflexivity|]. split; [|split].
  - exact (Hflag typed_schema "level" "abc"
             (mkArg "level" "l" TInt VNone false "" [] "" "store" "" "")
             ["8080"] eq_refl eq_refl eq_refl eq_refl).
  - exact (Hpos typed_schema "80x" [] (mkPositional "port" TInt "" "" VNone [])
             eq_refl eq_refl eq_refl).
  - rewrite Hint. reflexivity.
Defined.

Lemma separator_stops_scan_witness :
  let r := returned empty_result (parse cluster_schema ["-a"; "--"; "x"; "-b"]) in
  parse cluster_schema ["-a"; "--"; "x"; "-b"] = Returned r
  ∧ r_remaining r = ["x"; "-b"]
  ∧ r_args r !! "a" = Some (VBool true)
  ∧ r_args r !! "b" = Some (VBool false).
Proof.
  destruct (separator_stops_scan cluster_schema) as (_ & Hreach & _).
  pose (args := ["-a"; "--"; "x"; "-b"]).
  pose (f1 := returned (start cluster_schema)
                (parse_loop 1 cluster_schema ["-a"] (start cluster_schema))).
  assert (Hr : reaches cluster_schema args (start cluster_schema) f1).
  { apply (reaches_next _ _ _ f1 f1); [simpl; lia | reflexivity | apply reaches_here]. }
  pose proof (Hreach args f1 Hr ltac:(simpl; lia) eq_refl) as Hparse.
  split; [|repeat split; reflexivity].
  fold args. rewrite Hparse. reflexivity.
Defined.

Lemma short_cluster_semantics_witness :
  let f1 := mkFrame 2 0 []
              (set_arg (set_arg (set_arg (f_result (start cluster_schema))
                                   "a" (VBool true)) "b" (VBool true))
                 "c" (VStr "val")) in
  parse cluster_schema ["-acb"; "val"]
  = Raised (ArgError (Option_requires_value "c"))
  ∧ loop_body cluster_schema ["-abc"; "val"] (start cluster_schema)
    = Returned (Next f1).
Proof.
  pose (flag_a := mkArg "a" "a" TStr VNone false "" [] "" "store_true" "" "").
  pose (flag_b := mkArg "b" "b" TStr VNone false "" [] "" "store_true" "" "").
  split.
  - destruct (short_cluster_semantics cluster_schema ["-acb"; "val"]
                (start cluster_schema) "a"%char ["c"; "b"]%char)
      as (_ & _ & _ & Hfail & _).
    + apply reaches_here.
    + simpl; lia.
    + reflexivity.
    + discriminate.
    + refine (proj1 (Hfail ["a"%char] [flag_a] "c"%char ["b"%char]
                       (Arg_default "c" "c") _ eq_refl _ _ eq_refl eq_refl eq_refl)).
      * discriminate.
      * repeat constructor.
  - destruct (short_cluster_semantics cluster_schema ["-abc"; "val"]
                (start cluster_schema) "a"%char ["b"; "c"]%char)
      as (_ & _ & Hlast & _).
    + apply reaches_here.
    + simpl; lia.
    + reflexivity.
    + discriminate.
    + refine (Hlast ["a"; "b"]%char [flag_a; flag_b] "c"%char
                (Arg_default "c" "c") _ (VStr "val") eq_refl _ eq_refl eq_refl
                eq_refl _ _ eq_refl).
      * repeat constructor.
      * discriminate.
      * simpl; lia.
Defined.

Lemma value_resolution_without_inline_witness :
  no_value_action (Arg_default "c" "c") = false
  ∧ _process_arg (Arg_default "c" "c") ["--c"; "v"] 0 None = Returned (1, VStr "v")
  ∧ _process_arg (Arg_default "c" "c") ["--c"] 0 None
    = Raised (ArgError (Argument_requires_value "c")).
Proof.
  split; [reflexivity|]. split.
  - destruct (value_resolution_without_inline (Arg_default "c" "c") ["--c"; "v"] 0
                eq_refl) as (_ & Hnext & _).
    destruct Hnext as [Hcons _]; [intros [Hn _]; discriminate|].
    rewrite Hcons by (simpl; lia). reflexivity.
  - destruct (value_resolution_without_inline (Arg_default "c" "c") ["--c"] 0
                eq_refl) as (_ & Hnext & _).
    destruct Hnext as [_ Hnone]; [intros [Hn _]; discriminate|].
    apply Hnone. simpl; lia.
Defined.

(** C7, counterexample. With a required flag that was not given, the scan
    of ["--help"] returns and the required destination is None, yet [parse]
    does not fail with the required-argument error: it exits with code 0. *)
Lemma required_check_skipped_on_help :
  let f := mkFrame 1 0 []
             (set_arg (f_result (start required_schema)) "help" (VBool true)) in
  parse_loop 1 required_schema ["--help"] (start required_schema) = Returned f
  ∧ required_missing required_schema (flush (f_collected f) (f_result f))
  ∧ parse required_schema ["--help"] = Raised (SystemExit 0)
  ∧ ¬ (∃ e, parse required_schema ["--help"] = Raised e
            ∧ kind_of e = RequiredArgumentError).
Proof.
  split; [reflexivity|]. split; [|split].
  - exists (mkArg "name" "n" TStr VNone true "" [] "" "store" "" "").
    split; [unfold required_schema; simpl; set_solver|].
    split; reflexivity.
  - reflexivity.
  - intros (e & He & Hk).
    assert (Hp : parse required_schema ["--help"] = Raised (SystemExit 0))
      by reflexivity.
    rewrite Hp in He. injection He as <-. discriminate.
Qed.

Lemma required_check_unless_help_witness :
  (∃ e, parse required_schema [] = Raised e ∧ kind_of e = RequiredArgumentError)
  ∧ parse cluster_schema [] = Returned (_apply_defaults cluster_schema empty_result).
Proof.
  split.
  - destruct (required_check_unless_help required_schema) as (_ & _ & _ & Hempty & _).
    destruct Hempty as [_ Hreq]; [reflexivity|].
    apply Hreq.
    exists (mkArg "name" "n" TStr VNone true "" [] "" "store" "" "").
    split; [unfold required_schema; simpl; set_solver|].
    split; reflexivity.
  - destruct (required_check_unless_help cluster_schema) as (_ & _ & _ & Hempty & _).
    destruct Hempty as [Hnone _]; [reflexivity|].
    apply Hnone. repeat constructor.
Defined.

Lemma parse_leaves_positionals_empty_witness :
  let r := returned empty_result (parse demo_schema ["in.txt"; "e1"; "e2"]) in
  parse demo_schema ["in.txt"; "e1"; "e2"] = Returned r
  ∧ r_positionals r = []
  ∧ r_args r !! "extra" = Some (VList [VStr "e1"; VStr "e2"]).
Proof.
  destruct (parse_leaves_positionals_empty demo_schema) as [Hparse _].
  pose (f0 := returned (start demo_schema)
                (parse_loop 3 demo_schema ["in.txt"; "e1"; "e2"] (start demo_schema))).
  assert (Hf0 : parse_loop 3 demo_schema ["in.txt"; "e1"; "e2"] (start demo_schema)
                = Returned f0) by reflexivity.
  split; [reflexivity|].
  edestruct (Hparse ["in.txt"; "e1"; "e2"]) as (Hpos & f & Hloop & Hflush);
    [reflexivity|].
  split; [exact Hpos|].
  apply Hflush. simpl length in Hloop. rewrite Hf0 in Hloop.
  injection Hloop as <-. reflexivity.
Defined.

(** C10, counterexample. The count flag and the positional of
    [shared_schema] share the destination "n": after the bare token "abc"
    the destination holds a string, and the token --n=5, which resolves to
    the count flag, makes [parse] fail with TypeError. *)
Lemma count_with_inline_value_can_fail :
  _find_arg shared_schema "n"
  = Some (mkArg "n" "" TStr VNone false "" [] "" "count" "" "")
  ∧ r_args (returned empty_result (parse shared_schema ["abc"])) !! "n"
    = Some (VStr "abc")
  ∧ parse shared_schema ["abc"; "--n=5"] = Raised TypeError
  ∧ parse shared_schema ["abc"; "--n"] = Raised TypeError.
Proof. repeat split; reflexivity. Qed.

Lemma inline_value_ignored_by_no_value_flag_witness :
  loop_body demo_schema ["--verbose=3"; "--dry-run=no"] (start demo_schema)
  = Returned (Next (mkFrame 1 0 []
                      (set_arg (f_result (start demo_schema)) "verbose" (VInt 1))))
  ∧ loop_body demo_schema ["--verbose=3"; "--dry-run=no"] (start demo_schema)
    = loop_body demo_schema ["--verbose"; "--dry-run=no"] (start demo_schema).
Proof.
  destruct (inline_value_ignored_by_no_value_flag demo_schema
              ["--verbose=3"; "--dry-run=no"] (start demo_schema) "verbose" "3"
              (mkArg "verbose" "v" TStr VNone false "Increase verbosity" [] ""
                 "count" "" "")
              eq_refl eq_refl eq_refl eq_refl)
    as (_ & _ & _ & Hbare & _ & _ & Hcount).
  split.
  - apply (Hcount eq_refl (VInt 1)). reflexivity.
  - apply Hbare; [discriminate | reflexivity].
Defined.

(** * The further properties at concrete inputs *)

Lemma get_ignores_fallback_for_declared_witness :
  let r := returned empty_result (parse demo_schema ["-v"; "input.txt"]) in
  parse demo_schema ["-v"; "input.txt"] = Returned r
  ∧ get r "output" (VStr "fallback") = VStr "output.txt"
  ∧ get r "nothing" (VStr "fallback") = VStr "fallback".
Proof.
  intros r.
  assert (Hp : parse demo_schema ["-v"; "input.txt"] = Returned r) by reflexivity.
  destruct (get_ignores_fallback_for_declared demo_schema ["-v"; "input.txt"] r
              (mkArg "output" "o" TStr (VStr "output.txt") false "Output file" []
                 "" "store" "" "") Hp)
    as [(v & Hv & Hget) Habsent].
  { unfold demo_schema; simpl. set_solver. }
  split; [exact Hp|]. split.
  - assert (Hl : r_args r !! "output" = Some (VStr "output.txt")) by reflexivity.
    change "output" with
      (dest_of (mkArg "output" "o" TStr (VStr "output.txt") false "Output file" []
                  "" "store" "" "")) at 1.
    rewrite Hget. change (r_args r !! "output" = Some v) in Hv. congruence.
  - apply Habsent. reflexivity.
Defined.


Lemma help_exits_for_built_schemas_witness :
  built required_schema
  ∧ parse required_schema ["--help"] = Raised (SystemExit 0)
  ∧ parse required_schema ["-h"] = Raised (SystemExit 0)
  ∧ parse required_schema ["--help"; "--nope"]
    = Raised (ArgError (Unknown_argument_long "nope")).
Proof.
  pose proof required_schema_is_built as Hb.
  destruct (help_exits_for_built_schemas required_schema Hb)
    as (Hlong & Hshort & _ & Hunknown).
  split; [exact Hb|]. split; [exact Hlong|]. split; [exact Hshort|].
  apply (Hunknown "nope"); [discriminate | reflexivity | reflexivity].
Defined.

Lemma empty_long_key_is_help_witness :
  built required_schema
  ∧ parse required_schema ["--=anything"] = Raised (SystemExit 0).
Proof.
  pose proof required_schema_is_built as Hb.
  split; [exact Hb|].
  exact (proj2 (empty_long_key_is_help required_schema Hb) "anything").
Defined.

Lemma unknown_long_flag_witness :
  parse demo_schema ["--nope=3"] = Raised (ArgError (Unknown_argument_long "nope")).
Proof.
  destruct (unknown_long_flag demo_schema ["--nope=3"] (start demo_schema))
    as (_ & _ & Hparse); [simpl; lia | reflexivity | discriminate |].
  apply Hparse; [apply reaches_here|].
  repeat constructor; discriminate.
Defined.

Lemma unknown_short_in_cluster_witness :
  parse cluster_schema ["-az"; "val"]
  = Raised (ArgError (Unknown_argument_short "z")).
Proof.
  destruct (unknown_short_in_cluster cluster_schema ["-az"; "val"]
              (start cluster_schema) "a"%char ["z"%char])
    as (_ & Hfail & _);
    [apply reaches_here | simpl; lia | reflexivity | discriminate |].
  refine (Hfail ["a"%char]
            [mkArg "a" "a" TStr VNone false "" [] "" "store_true" "" ""]
            "z"%char [] _ eq_refl _ eq_refl _).
  - repeat constructor.
  - repeat constructor; discriminate.
Defined.

Lemma plain_store_value_verbatim_witness :
  parse demo_schema ["--output"; "--help"]
  = finish demo_schema
      (mkFrame 0 0 []
         (set_arg (_apply_defaults demo_schema empty_result) "output"
            (VStr "--help")))
  ∧ parse demo_schema ["--output=a=b"] = parse demo_schema ["--output"; "a=b"].
Proof.
  destruct (plain_store_value_verbatim demo_schema "output"
              (mkArg "output" "o" TStr (VStr "output.txt") false "Output file" []
                 "" "store" "" ""))
    as (_ & _ & Hbare & Hinline);
    [discriminate | reflexivity | reflexivity | repeat split |].
  split; [apply (Hbare "--help") | apply (Hinline "a=b")].
Defined.

Lemma last_write_wins_witness :
  parse demo_schema ["--output=a.txt"; "--output"; "b.txt"]
  = parse demo_schema ["--output"; "b.txt"]
  ∧ r_args (returned empty_result (parse demo_schema ["--output"; "b.txt"]))
      !! "output" = Some (VStr "b.txt").
Proof.
  destruct (last_write_wins demo_schema) as [_ Hparse].
  split; [|reflexivity].
  apply (Hparse "output"
           (mkArg "output" "o" TStr (VStr "output.txt") false "Output file" []
              "" "store" "" ""));
    [discriminate | reflexivity | reflexivity | repeat split].
Defined.

Lemma count_counts_occurrences_witness :
  parse demo_schema ["--verbose"; "--verbose"; "--verbose"]
  = parse demo_schema ["-vvv"]
  ∧ r_args (returned empty_result (parse demo_schema ["-vvv"])) !! "verbose"
    = Some (VInt 3).
Proof.
  destruct (count_counts_occurrences demo_schema "verbose"
              (mkArg "verbose" "v" TStr VNone false "Increase verbosity" [] ""
                 "count" "" "") 3)
    as (Hlong & Hshort & Hvalue);
    [discriminate | reflexivity | reflexivity | reflexivity | reflexivity |].
  split.
  - change ["--verbose"; "--verbose"; "--verbose"]
      with (replicate 3 ("--" +:+ "verbose")).
    rewrite Hlong. symmetry.
    apply (Hshort "v"%char); [lia | discriminate | reflexivity].
  - apply Hvalue.
    rewrite <- (Hshort "v"%char); [reflexivity | lia | discriminate | reflexivity].
Defined.

Lemma append_collects_in_order_witness :
  let r := returned empty_result
             (parse tags_schema ["--tag"; "b"; "--tag"; "-a"]) in
  parse tags_schema ["--tag"; "b"; "--tag"; "-a"] = Returned r
  ∧ r_args r !! "tag" = Some (VList [VStr "b"; VStr "-a"]).
Proof.
  intros r.
  assert (Hp : parse tags_schema ["--tag"; "b"; "--tag"; "-a"] = Returned r)
    by reflexivity.
  split; [exact Hp|].
  destruct (append_collects_in_order tags_schema "tag"
              (mkArg "tag" "t" TStr VNone false "" [VStr "x"] "" "append" "" "")
              ["b"; "-a"])
    as [_ Hvalue];
    [discriminate | reflexivity | reflexivity | repeat split |].
  apply (Hvalue ltac:(discriminate) r Hp).
Defined.

Lemma bare_tokens_fill_positionals_witness :
  let r := returned empty_result (parse copy_schema ["a"; "b"; "c"]) in
  parse copy_schema ["a"; "b"; "c"] = Returned r
  ∧ r_args r !! "src" = Some (VStr "a")
  ∧ r_args r !! "dst" = Some (VStr "b")
  ∧ r_remaining r = ["c"].
Proof.
  intros r.
  pose proof (bare_tokens_fill_positionals copy_schema ["a"; "b"; "c"]) as Hp.
  assert (Hr : parse copy_schema ["a"; "b"; "c"] = Returned r).
  { rewrite Hp; [reflexivity | repeat constructor | repeat constructor]. }
  split; [exact Hr|]. repeat split; reflexivity.
Defined.

Lemma multi_positional_is_greedy_witness :
  let r := returned empty_result (parse demo_schema ["in.txt"; "e1"; "e2"]) in
  parse demo_schema ["in.txt"; "e1"; "e2"] = Returned r
  ∧ r_args r !! "extra" = Some (VList [VStr "e1"; VStr "e2"])
  ∧ r_remaining r = [].
Proof.
  intros r.
  assert (Hp : parse demo_schema ["in.txt"; "e1"; "e2"] = Returned r) by reflexivity.
  split; [exact Hp|].
  destruct (multi_positional_is_greedy demo_schema
              [mkPositional "input" TStr "Input file" "" VNone []]
              (mkPositional "extra" TStr "Extra files" "*" VNone [])
              [] ["in.txt"] ["e1"; "e2"])
    as [_ Hvalue];
    [reflexivity | repeat constructor | repeat split | reflexivity | discriminate
    | repeat constructor |].
  apply (Hvalue r Hp).
Defined.

Lemma separator_drops_earlier_remaining_witness :
  parse cluster_schema ["x"; "y"; "--"; "z"] = parse cluster_schema ["--"; "z"]
  ∧ r_remaining (returned empty_result (parse cluster_schema ["x"; "y"; "--"; "z"]))
    = ["z"].
Proof.
  destruct (separator_drops_earlier_remaining cluster_schema ["x"; "y"] ["z"])
    as [_ Hsame]; [constructor | repeat constructor |].
  split; [apply Hsame; reflexivity | reflexivity].
Defined.

Lemma validate_reports_first_missing_witness :
  _validate required_schema (_apply_defaults required_schema empty_result)
  = Raised (ArgError (Required_argument "name"))
  ∧ parse required_schema [] = Raised (ArgError (Required_argument "name")).
Proof.
  destruct (validate_reports_first_missing required_schema [help_flag]
              (mkArg "name" "n" TStr VNone true "" [] "" "store" "" "") []
              (_apply_defaults required_schema empty_result))
    as [Hvalidate Hparse];
    [reflexivity | repeat constructor | reflexivity | reflexivity |].
  split; [exact Hvalidate|].
  apply (Hparse [] (start required_schema)); reflexivity.
Defined.

Lemma remaining_is_subsequence_of_input_witness :
  let r := returned empty_result (parse cluster_schema ["x"; "-a"; "y"]) in
  parse cluster_schema ["x"; "-a"; "y"] = Returned r
  ∧ r_remaining r = ["x"; "y"]
  ∧ r_remaining r `sublist_of` ["x"; "-a"; "y"].
Proof.
  intros r.
  assert (Hp : parse cluster_schema ["x"; "-a"; "y"] = Returned r) by reflexivity.
  split; [exact Hp|]. split; [reflexivity|].
  apply (remaining_is_subsequence_of_input cluster_schema _ r Hp).
Defined.

Lemma a_turn_consumes_one_or_two_tokens_witness :
  let f' := mkFrame 2 0 []
              (set_arg (f_result (start demo_schema)) "output" (VStr "x")) in
  loop_body demo_schema ["--output"; "x"; "y"] (start demo_schema)
  = Returned (Next f')
  ∧ (f_i f' = f_i (start demo_schema) + 1 ∨ f_i f' = f_i (start demo_schema) + 2).
Proof.
  intros f'.
  assert (Hb : loop_body demo_schema ["--output"; "x"; "y"] (start demo_schema)
               = Returned (Next f')) by reflexivity.
  split; [exact Hb|].
  destruct a_turn_consumes_one_or_two_tokens as (_ & _ & Hturn).
  apply (Hturn demo_schema ["--output"; "x"; "y"] (start demo_schema) f' Hb).
Defined.


Lemma help_text_columns_witness :
  String.length (option_flags help_flag) ≤ 25
  ∧ str_from 28 (option_line help_flag) = "Show this help message" +:+ newline.
Proof.
  assert (Hlen : String.length (option_flags help_flag) ≤ 25) by (simpl; lia).
  split; [exact Hlen|].
  destruct help_text_columns as (_ & _ & _ & Hcol & _).
  apply (Hcol help_flag Hlen).
Defined.
